(** * spineplot: systematic-key parsing, weighted averages, response
      matrices and group ordering

    A shallow embedding of [spineplot/numu_incl/helpers.py] and of the
    group-ordering loop of [spineplot/purity.py], with the properties the
    specification states about them.

    Conventions of the embedding.
    - A Python [str] is a [string]; the string methods the code calls
      ([in], [replace], [split], [join], [s[-1]], [s[:-1]]) are the
      functions of module [PyStr].
    - A Python exception is a constructor of [exn]; a call that may raise
      returns a [result].
    - For the formulas the functions evaluate, a float64 array entry is
      an exact rational ([Q]) and a value produced by an unguarded division
      by zero is the separate cell [NonFinite].  Module [F64] embeds
      [get_avg_fracunc] once more in binary64 arithmetic, with rounding,
      overflow and underflow, for the property that depends on them.
    - A Python [dict] whose iteration order matters is an association list
      in insertion order. *)

From Stdlib Require Import List Arith Lia Bool String Ascii Permutation.
From Stdlib Require Import ZArith QArith Lqa Qround Qabs Qpower.
From Stdlib Require DecimalString DecimalNat DecimalFacts.
From Equations Require Import Equations.
From Equations.Prop Require Import Logic.
Import ListNotations.

Local Close Scope Q_scope.
Local Open Scope string_scope.
Local Open Scope list_scope.

(** ** Exceptions and results *)

(** The exception classes the modelled code can raise. *)
Inductive exn : Type :=
| AssertionError (msg : string)
| UnboundLocalError
| IndexError
| ZeroDivisionError.

Inductive result (A : Type) : Type :=
| Ok (a : A)
| Raise (e : exn).
Arguments Ok {A} a.
Arguments Raise {A} e.

Definition bind {A B : Type} (m : result A) (k : A -> result B) : result B :=
  match m with
  | Ok a => k a
  | Raise e => Raise e
  end.

Notation "x <- m ;; k" := (bind m (fun x => k))
  (at level 61, m at next level, right associativity).

(** Python's built-in hierarchy: [LookupError] is the base class of
    [IndexError] and [KeyError]; [UnboundLocalError] derives from
    [NameError], [AssertionError] and [ZeroDivisionError] from
    [Exception] and [ArithmeticError]. *)
Definition is_LookupError (e : exn) : bool :=
  match e with
  | IndexError => true
  | AssertionError _ | UnboundLocalError | ZeroDivisionError => false
  end.

(** ** Python string methods *)

Module PyStr.

(** [sub in s]. *)
Fixpoint contains (sub s : string) : bool :=
  if prefix sub s then true
  else match s with
       | EmptyString => false
       | String _ s' => contains sub s'
       end.

(** Worker of [remove]: [skip] characters of a match are still to be
    dropped; otherwise a match of [old] at the current position is dropped
    and scanning resumes after it (matches do not overlap and the output
    is not scanned again). *)
Fixpoint remove_from (old : string) (skip : nat) (s : string) : string :=
  match s with
  | EmptyString => EmptyString
  | String c s' =>
      match skip with
      | S k => remove_from old k s'
      | O => if prefix old s
             then remove_from old (String.length old - 1) s'
             else String c (remove_from old 0 s')
      end
  end.

(** [s.replace(old, '')].  For an empty [old] Python inserts the empty
    replacement between the characters, which leaves [s] as it is. *)
Definition remove (old s : string) : string :=
  match old with
  | EmptyString => s
  | String _ _ => remove_from old 0 s
  end.

(** [s.split(sep)] for a one-character separator: never the empty list,
    [''.split('_') == ['']]. *)
Fixpoint split (sep : ascii) (s : string) : list string :=
  match s with
  | EmptyString => [EmptyString]
  | String c s' =>
      if Ascii.eqb c sep then EmptyString :: split sep s'
      else match split sep s' with
           | [] => [String c EmptyString]
           | w :: ws => String c w :: ws
           end
  end.

(** [sep.join(parts)]. *)
Definition join (sep : string) (parts : list string) : string :=
  String.concat sep parts.

(** [s[-1]]: [None] stands for the [IndexError] of the empty string. *)
Fixpoint last (s : string) : option ascii :=
  match s with
  | EmptyString => None
  | String c EmptyString => Some c
  | String _ s' => last s'
  end.

(** [s[:-1]]. *)
Fixpoint init (s : string) : string :=
  match s with
  | EmptyString => EmptyString
  | String _ EmptyString => EmptyString
  | String c s' => String c (init s')
  end.

End PyStr.

(** ** [extract_parameter_name] (helpers.py, lines 3-49) *)

(** Lines 22-25: the [.csv] shortening. *)
Definition shorten_csv (key : string) : string :=
  if PyStr.contains ".csv" key then
    let key := PyStr.remove ".csv" key in
    let keep := removelast (PyStr.split "_" key) in
    PyStr.join "_" keep
  else key.

(** Lines 27-30: the [for] loop with its [break].  [None] is the local
    [var_name] left unbound. *)
Fixpoint scan_variables (variables : list string) (key : string)
  : option string :=
  match variables with
  | [] => None
  | var :: rest =>
      if PyStr.contains var key then Some var else scan_variables rest key
  end.

(** Reading the local [var_name]. *)
Definition read_var_name (var_name : option string) : result string :=
  match var_name with
  | Some v => Ok v
  | None => Raise UnboundLocalError
  end.

(** Lines 37-45: the nine [replace] statements. *)
Definition strip_tokens (key : string) : string :=
  let key := PyStr.remove ";1" key in
  let key := PyStr.remove "reco_leading_muon_" key in
  let key := PyStr.remove "true_leading_muon_" key in
  let key := PyStr.remove "momentum_gev" key in
  let key := PyStr.remove "costheta" key in
  let key := PyStr.remove "multisigma_" key in
  let key := PyStr.remove "multisim_" key in
  let key := PyStr.remove "nsigma_" key in
  let key := PyStr.remove "GENIEReWeight_SBN_v1_" key in
  key.

(** Lines 47-48: [while key[-1] == '_': key = key[:-1]]. *)
Equations? strip_trailing (key : string) : result string
  by wf (String.length key) lt :=
  strip_trailing key with inspect (PyStr.last key) := {
    | exist _ None _ => Raise IndexError
    | exist _ (Some c) Hlast =>
        if Ascii.eqb c "_" then strip_trailing (PyStr.init key)
        else Ok key }.
Proof.
  clear strip_trailing. revert Hlast.
  induction key as [|a [|b t] IH]; simpl; intros H.
  - discriminate.
  - lia.
  - specialize (IH H). simpl in IH. lia.
Qed.

Definition extract_parameter_name (key : string) (variables : list string)
  : result (string * string) :=
  let key := shorten_csv key in
  let var_name := scan_variables variables key in
  if PyStr.contains "stat" key then
    v <- read_var_name var_name ;;
    Ok ("stat", v)
  else
    let key := strip_tokens key in
    key <- strip_trailing key ;;
    v <- read_var_name var_name ;;
    Ok (key, v).

(** *** What the specification calls the canonical name *)

(** Stripping all trailing ["_"] characters, read from the front of the
    string: a character is kept unless it is an underscore followed only
    by underscores. *)
Fixpoint rstrip_underscores (s : string) : string :=
  match s with
  | EmptyString => EmptyString
  | String c s' =>
      match rstrip_underscores s' with
      | EmptyString => if Ascii.eqb c "_" then EmptyString
                       else String c EmptyString
      | r => String c r
      end
  end.

(** The literal [";1"] and the eight tokens, in removal order. *)
Definition removed_tokens : list string :=
  [";1"; "reco_leading_muon_"; "true_leading_muon_"; "momentum_gev";
   "costheta"; "multisigma_"; "multisim_"; "nsigma_";
   "GENIEReWeight_SBN_v1_"].

Definition canonical_name (key : string) : string :=
  rstrip_underscores
    (fold_left (fun k tok => PyStr.remove tok k) removed_tokens
               (shorten_csv key)).

(** [v] is the first entry of [variables], in list order, that occurs in
    [key]. *)
Definition first_match (variables : list string) (key v : string) : Prop :=
  exists before after,
    variables = before ++ v :: after /\
    PyStr.contains v key = true /\
    forall u, In u before -> PyStr.contains u key = false.

(** ** numpy on arrays of exact rationals *)

Definition vector : Type := list Q.

(** A 2-D array, as the list of its rows. *)
Definition matrix : Type := list (list Q).

(** A float64 result cell: a finite value, or the NaN/Inf that a division
    by zero leaves behind. *)
Inductive cell : Type :=
| Finite (q : Q)
| NonFinite.

Definition is_matrix {A : Type} (rows cols : nat) (m : list (list A)) : Prop :=
  List.length m = rows /\ Forall (fun r => List.length r = cols) m.

Module Np.

(** [a.sum()] of a 1-D array, accumulated from the left. *)
Definition sum (a : vector) : Q := fold_left Qplus a 0%Q.

(** Elementwise binary operation on two 1-D arrays of one shape. *)
Fixpoint zip_with (f : Q -> Q -> Q) (a b : vector) : vector :=
  match a, b with
  | x :: a', y :: b' => f x y :: zip_with f a' b'
  | _, _ => []
  end.

(** [np.multiply(a, b)], 1-D. *)
Definition multiply (a b : vector) : vector := zip_with Qmult a b.

Definition ncols (m : matrix) : nat :=
  match m with
  | [] => O
  | r :: _ => List.length r
  end.

(** [np.sum(m, axis=0)]: the rows are added up, one after the other. *)
Definition sum_axis0 (m : matrix) : vector :=
  fold_left (zip_with Qplus) m (repeat 0%Q (ncols m)).

(** [m * v]: the 1-D array [v] is broadcast along the rows of [m]. *)
Definition multiply_rows (m : matrix) (v : vector) : matrix :=
  map (fun row => multiply row v) m.

(** [np.zeros_like(m, dtype=float)]. *)
Definition zeros_like (m : matrix) : list (list cell) :=
  map (map (fun _ => Finite 0%Q)) m.

(** [v != 0], elementwise. *)
Definition not_equal_zero (v : vector) : list bool :=
  map (fun d => negb (Qeq_bool d 0%Q)) v.

(** One float64 division: a zero divisor gives Inf or NaN. *)
Definition true_divide (x d : Q) : cell :=
  if Qeq_bool d 0%Q then NonFinite else Finite (x / d)%Q.

(** One row of [np.divide(a, d, out=out, where=mask)]: the quotient is
    stored where the mask holds, the entry of [out] is kept elsewhere. *)
Fixpoint divide_row (a d : vector) (out : list cell) (mask : list bool)
  : list cell :=
  match a, d, out, mask with
  | x :: a', y :: d', o :: out', w :: mask' =>
      (if w then true_divide x y else o) :: divide_row a' d' out' mask'
  | _, _, _, _ => []
  end.

(** [np.divide(a, d, out=out, where=mask)] with [d] and [mask] broadcast
    along the rows. *)
Fixpoint divide (a : matrix) (d : vector) (out : list (list cell))
  (mask : list bool) : list (list cell) :=
  match a, out with
  | ra :: a', ro :: out' => divide_row ra d ro mask :: divide a' d out' mask
  | _, _ => []
  end.

(** [np.average(a, weights=w)], 1-D arrays of one shape: numpy raises
    [ZeroDivisionError] when the weights sum to zero. *)
Definition average (a w : vector) : result Q :=
  let scl := sum w in
  if Qeq_bool scl 0%Q then Raise ZeroDivisionError
  else Ok (sum (multiply a w) / scl)%Q.

End Np.

(** ** [get_avg_fracunc] (helpers.py, lines 51-69) *)

(** [str(n)] for a length. *)
Definition decimal (n : nat) : string :=
  DecimalString.NilEmpty.string_of_uint (Nat.to_uint n).

(** The f-string of the [assert] on line 68. *)
Definition length_message (n_frac_uncs n_cv : nat) : string :=
  ("Fractional uncertainties (" ++ decimal n_frac_uncs
   ++ ") and central values (" ++ decimal n_cv
   ++ ") must have the same length")%string.

Definition get_avg_fracunc (frac_uncs cv : vector) : result Q :=
  if negb (List.length frac_uncs =? List.length cv)%nat then
    Raise (AssertionError
             (length_message (List.length frac_uncs) (List.length cv)))
  else Np.average frac_uncs cv.

(** ** [convert_smearing_to_response] (helpers.py, lines 71-90) *)

Definition convert_smearing_to_response (smearing : matrix) (eff : vector)
  : list (list cell) :=
  let denom := Np.sum_axis0 smearing in
  let response :=
    Np.divide (Np.multiply_rows smearing eff) denom
              (Np.zeros_like smearing) (Np.not_equal_zero denom) in
  response.

(** *** The specification's formulas *)

(** The sum of [f 0 .. f (n-1)]. *)
Fixpoint index_sum (n : nat) (f : nat -> Q) : Q :=
  match n with
  | O => 0%Q
  | S k => (index_sum k f + f k)%Q
  end.

(** [v[i]] and [m[i][j]] of arrays read in range. *)
Definition at1 (v : vector) (i : nat) : Q := nth i v 0%Q.
Definition at2 (m : matrix) (i j : nat) : Q := nth j (nth i m []) 0%Q.
Definition cell_at (m : list (list cell)) (i j : nat) : cell :=
  nth j (nth i m []) NonFinite.

(** [sum(smearing[:,j])] over the [n] rows. *)
Definition column_sum (n : nat) (smearing : matrix) (j : nat) : Q :=
  index_sum n (fun i => at2 smearing i j).


(** [lo] is [min(l)], [hi] is [max(l)]; values are compared as numbers. *)
Definition is_min (lo : Q) (l : vector) : Prop :=
  (exists x, In x l /\ x == lo)%Q /\ forall x, In x l -> (lo <= x)%Q.
Definition is_max (hi : Q) (l : vector) : Prop :=
  (exists x, In x l /\ x == hi)%Q /\ forall x, In x l -> (x <= hi)%Q.

(** ** [get_avg_fracunc] in binary64 arithmetic *)

(** The arrays of [get_avg_fracunc] hold IEEE 754 binary64 numbers and
    numpy rounds every product, sum and quotient to the nearest one, ties
    to even.  Module [F64] embeds the function with that rounding.  A
    finite double is the rational it stands for (the two zeros are not
    told apart); the infinities and NaN are values of their own. *)

Module F64.

Inductive double : Type :=
| Num (q : Q)
| Inf (negative : bool)
| NaN.

Definition pow2 (e : Z) : Q := (2 ^ e)%Q.

(** The exponent of a positive rational: [pow2 e <= x < pow2 (e + 1)]. *)
Definition ilog2 (x : Q) : Z :=
  let e := (Z.log2 (Qnum x) - Z.log2 (Zpos (Qden x)))%Z in
  if Qle_bool (pow2 e) x then e else (e - 1)%Z.

(** The nearest integer, a tie going to the even one. *)
Definition rne (y : Q) : Z :=
  let f := Qfloor y in
  match Qcompare (y - inject_Z f) (1 # 2) with
  | Lt => f
  | Gt => (f + 1)%Z
  | Eq => if Z.even f then f else (f + 1)%Z
  end.

(** The spacing of the doubles around [x]: 53 significant bits, and the
    fixed spacing [pow2 (-1074)] of the subnormal numbers below
    [pow2 (-1022)]. *)
Definition ulp (x : Q) : Q :=
  pow2 (Z.max (ilog2 (Qabs x)) (-1022) - 52).

(** Rounding of an exact result: to the nearest multiple of the spacing,
    and to an infinity from [pow2 1024] on. *)
Definition round (x : Q) : double :=
  if Qeq_bool x 0 then Num 0
  else
    let r := Qred (inject_Z (rne (x / ulp x)) * ulp x) in
    if Qle_bool (pow2 1024) (Qabs r) then Inf (Qle_bool x 0) else Num r.

Definition negative (q : Q) : bool := negb (Qle_bool 0 q).

Definition add (a b : double) : double :=
  match a, b with
  | Num x, Num y => round (x + y)
  | Inf s, Inf t => if Bool.eqb s t then Inf s else NaN
  | Inf s, Num _ | Num _, Inf s => Inf s
  | NaN, _ | _, NaN => NaN
  end.

Definition mul (a b : double) : double :=
  match a, b with
  | Num x, Num y => round (x * y)
  | Inf s, Inf t => Inf (xorb s t)
  | Inf s, Num y | Num y, Inf s =>
      if Qeq_bool y 0 then NaN else Inf (xorb s (negative y))
  | NaN, _ | _, NaN => NaN
  end.

(** A zero divisor is taken as [+0.0]. *)
Definition div (a b : double) : double :=
  match a, b with
  | Num x, Num y =>
      if Qeq_bool y 0
      then (if Qeq_bool x 0 then NaN else Inf (negative x))
      else round (x / y)
  | Num _, Inf _ => Num 0
  | Inf s, Num y => Inf (xorb s (negative y))
  | Inf _, Inf _ => NaN
  | NaN, _ | _, NaN => NaN
  end.

(** [np.asanyarray] of a sequence of finite doubles. *)
Definition of_vector (v : vector) : list double := map Num v.

(** [np.multiply(a, b)], 1-D. *)
Fixpoint multiply (a b : list double) : list double :=
  match a, b with
  | x :: a', y :: b' => mul x y :: multiply a' b'
  | _, _ => []
  end.

(** The order of the additions of [a.sum()].  numpy adds the entries of a
    short array one after the other and those of a longer one in blocks
    and pairs; which entries meet in which addition is a matter of the
    numpy build, not of [helpers.py].  A [plan] is such an order: a leaf is
    the entry at an index, a node one addition. *)
Inductive plan : Type :=
| Leaf (i : nat)
| Node (l r : plan).

Fixpoint leaves (p : plan) : list nat :=
  match p with
  | Leaf i => [i]
  | Node l r => leaves l ++ leaves r
  end.

(** The number of additions of a plan. *)
Fixpoint nodes (p : plan) : nat :=
  match p with
  | Leaf _ => O
  | Node l r => S (nodes l + nodes r)
  end.

(** A plan for an array of [n] entries adds each of them once. *)
Definition covers (p : plan) (n : nat) : Prop :=
  Permutation (leaves p) (seq 0 n).

(** The entries [0 .. m] one after the other: the order of a short
    array. *)
Fixpoint chain (m : nat) : plan :=
  match m with
  | O => Leaf O
  | S k => Node (chain k) (Leaf (S k))
  end.

Definition sequential (n : nat) : plan := chain (pred n).

Fixpoint tree_sum (p : plan) (a : list double) : double :=
  match p with
  | Leaf i => nth i a (Num 0)
  | Node l r => add (tree_sum l a) (tree_sum r a)
  end.

(** [a.sum()] in the order [order]; the sum of an empty array is zero. *)
Definition sum (order : plan) (a : list double) : double :=
  match a with
  | [] => Num 0
  | _ :: _ => tree_sum order a
  end.

(** [scl == 0.0]. *)
Definition is_zero (d : double) : bool :=
  match d with
  | Num q => Qeq_bool q 0
  | Inf _ | NaN => false
  end.

(** [np.average(a, weights=w)]; [order_w] is the order in which the
    weights are summed, [order_p] the order of the products. *)
Definition average (order_w order_p : plan) (a w : vector) : result double :=
  let scl := sum order_w (of_vector w) in
  if is_zero scl then Raise ZeroDivisionError
  else Ok (div (sum order_p (multiply (of_vector a) (of_vector w))) scl).

Definition get_avg_fracunc (order_w order_p : plan) (frac_uncs cv : vector)
  : result double :=
  if negb (List.length frac_uncs =? List.length cv)%nat then
    Raise (AssertionError
             (length_message (List.length frac_uncs) (List.length cv)))
  else average order_w order_p frac_uncs cv.

(** *** A call without overflow and underflow *)

(** The rounded value of an exact result that is zero or at least
    [pow2 (-1022)] in magnitude and does not round to an infinity; [None]
    for a result that underflows or overflows. *)
Definition round_normal (x : Q) : option Q :=
  if Qeq_bool x 0 || Qle_bool (pow2 (-1022)) (Qabs x) then
    match round x with
    | Num r => Some r
    | Inf _ | NaN => None
    end
  else None.

Fixpoint multiply_normal (a b : vector) : option vector :=
  match a, b with
  | x :: a', y :: b' =>
      match round_normal (x * y), multiply_normal a' b' with
      | Some p, Some ps => Some (p :: ps)
      | _, _ => None
      end
  | _, _ => Some []
  end.

Fixpoint tree_sum_normal (p : plan) (a : vector) : option Q :=
  match p with
  | Leaf i => Some (nth i a 0%Q)
  | Node l r =>
      match tree_sum_normal l a, tree_sum_normal r a with
      | Some x, Some y => round_normal (x + y)
      | _, _ => None
      end
  end.

Definition sum_normal (order : plan) (a : vector) : option Q :=
  match a with
  | [] => Some 0%Q
  | _ :: _ => tree_sum_normal order a
  end.

(** The value a call returns when its lengths agree, its weights do not
    sum to zero and none of its operations overflows or underflows;
    [None] for every other call. *)
Definition get_avg_fracunc_normal (order_w order_p : plan)
  (frac_uncs cv : vector) : option Q :=
  if negb (List.length frac_uncs =? List.length cv)%nat then None
  else
    match sum_normal order_w cv with
    | Some scl =>
        if Qeq_bool scl 0 then None
        else
          match multiply_normal frac_uncs cv with
          | Some products =>
              match sum_normal order_p products with
              | Some total => round_normal (total / scl)
              | None => None
              end
          | None => None
          end
    | None => None
    end.

(** *** The rounding error *)

(** The unit roundoff of binary64. *)
Definition u : Q := pow2 (-53).

(** [grow k] bounds the factor by which [k] roundings in a row can change
    a value: each rounding multiplies by a factor between [1 - u] and
    [1 / (1 - u)]. *)
Fixpoint grow (k : nat) : Q :=
  match k with
  | O => 1%Q
  | S k' => (grow k' / (1 - u))%Q
  end.

(** The relative tolerance on the result for [n] bins: the product, at
    most [n] additions and the division on the side of the numerator, at
    most [n] additions on the side of the divisor. *)
Definition tolerance (n : nat) : Q := (grow (2 * n + 2) - 1)%Q.

(** The sum of [g i] over the indices of a list. *)
Fixpoint sum_over (indices : list nat) (g : nat -> Q) : Q :=
  match indices with
  | [] => 0%Q
  | i :: rest => (g i + sum_over rest g)%Q
  end.

(** A factor that [k] roundings can have produced. *)
Definition near (k : nat) (c : Q) : Prop :=
  (c <= grow k /\ 1 <= c * grow k)%Q.

End F64.





(** ** The group list of [SpinePurity.draw] (purity.py, lines 115-118) *)

Section Groups.

(** The type of category keys. *)
Context {K : Type}.

(** [categories.values()]: the group labels in insertion order. *)
Definition dict_values (categories : list (K * string)) : list string :=
  map snd categories.

(** [category not in groups]. *)
Definition not_in (category : string) (groups : list string) : bool :=
  negb (existsb (String.eqb category) groups).

(** Lines 117-118: one turn of the loop. *)
Definition group_step (groups : list string) (category : string)
  : list string :=
  if not_in category groups then groups ++ [category] else groups.

(** Lines 115-118: the loop over [categories.values()]. *)
Definition draw_groups (categories : list (K * string)) : list string :=
  fold_left group_step (dict_values categories) [].

(** Deduplication that keeps the first occurrence of every label. *)
Fixpoint first_seen (values : list string) : list string :=
  match values with
  | [] => []
  | g :: rest =>
      g :: filter (fun h => negb (String.eqb h g)) (first_seen rest)
  end.

End Groups.

(** ** [plotters.py] *)

(** [plot_square_with_bins] checks its arguments, prepares a mesh and hands
    it to matplotlib.  The embedding keeps the checks and the preparation,
    and returns the mesh handed over in place of the matplotlib handles. *)

Module Plot.

(** [a / 2], elementwise. *)
Definition halve (a : vector) : vector := map (fun s => (s / 2)%Q) a.

(** The outcome of a function that validates its arguments. *)
Inductive checked (A : Type) : Type :=
| Accepted (a : A)
| ValueError (msg : string).
Arguments Accepted {A} a.
Arguments ValueError {A} msg.

(** The f-string of line 71. *)
Definition edges_message (n_edges n_expected : nat) : string :=
  ("Bin edges length (" ++ decimal n_edges
   ++ ") must be n_bins + 1 (" ++ decimal n_expected ++ ")")%string.

(** [np.meshgrid(x, y)]: every row of the first array is [x], row [i] of
    the second array repeats [y[i]]. *)
Definition meshgrid (x y : vector) : matrix * matrix :=
  (map (fun _ => x) y, map (fun yi => map (fun _ => yi) x) y).

(** [plot_square_with_bins] (lines 41-103), up to the arrays [X], [Y]
    handed to [pcolormesh] with the matrix. *)
Definition plot_square_with_bins (m : matrix) (bin_edges : vector)
  : checked (matrix * matrix) :=
  let n_bins := List.length m in
  if negb (Np.ncols m =? n_bins)%nat then
    ValueError "Covariance matrix must be square"
  else if negb (List.length bin_edges =? n_bins + 1)%nat then
    ValueError (edges_message (List.length bin_edges) (n_bins + 1))
  else
    let bin_centers :=
      halve (Np.zip_with Qplus (removelast bin_edges) (tl bin_edges)) in
    Accepted (meshgrid bin_centers bin_centers).

End Plot.

(** ** Lemmas on the string methods *)

Lemma prefix_app (a s : string) :
  prefix a s = true <-> exists b, s = (a ++ b)%string.
Proof.
  revert s. induction a as [|c a IH]; intros [|d s]; simpl.
  - split; [intros _; exists ""; reflexivity | reflexivity].
  - split; [intros _; exists (String d s); reflexivity | reflexivity].
  - split; [discriminate | intros [b Hb]; discriminate].
  - destruct (ascii_dec c d) as [->|Hne].
    + rewrite IH. split; intros [b Hb]; exists b.
      * now rewrite Hb.
      * now injection Hb.
    + split; [discriminate | intros [b Hb]; injection Hb; congruence].
Qed.

Lemma contains_unfold (sub s : string) :
  PyStr.contains sub s =
  if prefix sub s then true
  else match s with
       | EmptyString => false
       | String _ s' => PyStr.contains sub s'
       end.
Proof. destruct s; reflexivity. Qed.

(** [contains] is occurrence as a contiguous substring. *)
Lemma contains_occurs (sub s : string) :
  PyStr.contains sub s = true <-> exists a b, s = (a ++ sub ++ b)%string.
Proof.
  induction s as [|c s IH]; rewrite contains_unfold.
  - destruct (prefix sub "") eqn:Hp.
    + split; [intros _ | reflexivity].
      apply prefix_app in Hp. destruct Hp as [b Hb].
      exists "", b. exact Hb.
    + split; [discriminate |].
      intros [a [b Hab]]. destruct a; [|discriminate].
      simpl in Hab. assert (prefix sub "" = true) by (apply prefix_app; eauto).
      congruence.
  - destruct (prefix sub (String c s)) eqn:Hp.
    + split; [intros _ | reflexivity].
      apply prefix_app in Hp. destruct Hp as [b Hb].
      exists "", b. exact Hb.
    + rewrite IH. split.
      * intros [a [b Hab]]. exists (String c a), b. simpl. now rewrite Hab.
      * intros [a [b Hab]]. destruct a as [|d a].
        -- simpl in Hab.
           assert (prefix sub (String c s) = true) by (apply prefix_app; eauto).
           congruence.
        -- injection Hab as _ Hab. eauto.
Qed.

Lemma last_None (key : string) : PyStr.last key = None -> key = "".
Proof.
  induction key as [|a [|b t] IH]; simpl; intros H;
    [reflexivity | discriminate | specialize (IH H); discriminate].
Qed.

Lemma rstrip_underscores_init (key : string) :
  PyStr.last key = Some "_"%char ->
  rstrip_underscores key = rstrip_underscores (PyStr.init key).
Proof.
  induction key as [|a [|b t] IH]; intros H.
  - discriminate.
  - simpl in H. injection H as ->. reflexivity.
  - specialize (IH H).
    change (rstrip_underscores (String a (String b t)))
      with (match rstrip_underscores (String b t) with
            | EmptyString => if Ascii.eqb a "_" then EmptyString
                             else String a EmptyString
            | r => String a r
            end).
    change (PyStr.init (String a (String b t)))
      with (String a (PyStr.init (String b t))).
    change (rstrip_underscores (String a (PyStr.init (String b t))))
      with (match rstrip_underscores (PyStr.init (String b t)) with
            | EmptyString => if Ascii.eqb a "_" then EmptyString
                             else String a EmptyString
            | r => String a r
            end).
    now rewrite IH.
Qed.

Lemma rstrip_underscores_keep (key : string) (c : ascii) :
  PyStr.last key = Some c -> Ascii.eqb c "_" = false ->
  rstrip_underscores key = key.
Proof.
  induction key as [|a [|b t] IH]; intros H Hc.
  - discriminate.
  - simpl in H. injection H as ->. simpl. now rewrite Hc.
  - specialize (IH H Hc).
    change (rstrip_underscores (String a (String b t)))
      with (match rstrip_underscores (String b t) with
            | EmptyString => if Ascii.eqb a "_" then EmptyString
                             else String a EmptyString
            | r => String a r
            end).
    now rewrite IH.
Qed.

(** The loop of lines 47-48 returns the key without its trailing
    underscores, and raises [IndexError] exactly when nothing else is
    left. *)
Lemma strip_trailing_spec (key : string) :
  strip_trailing key =
  match rstrip_underscores key with
  | EmptyString => Raise IndexError
  | r => Ok r
  end.
Proof.
  funelim (strip_trailing key).
  - destruct (Ascii.eqb c "_") eqn:Hc.
    + apply Ascii.eqb_eq in Hc. subst c.
      rewrite (rstrip_underscores_init key Hlast). assumption.
    + rewrite (rstrip_underscores_keep key c Hlast Hc).
      destruct key; [discriminate | reflexivity].
  - match goal with
    | Hnone : PyStr.last _ = None |- _ =>
        rewrite (last_None _ Hnone); reflexivity
    end.
Qed.

Lemma strip_tokens_fold (key : string) :
  strip_tokens key =
  fold_left (fun k tok => PyStr.remove tok k) removed_tokens key.
Proof. reflexivity. Qed.

Lemma scan_variables_first (variables : list string) (key v : string) :
  scan_variables variables key = Some v <-> first_match variables key v.
Proof.
  unfold first_match. induction variables as [|u rest IH]; simpl.
  - split; [discriminate |].
    intros [before [after [H _]]]. destruct before; discriminate.
  - destruct (PyStr.contains u key) eqn:Hu.
    + split.
      * intros [= ->]. exists [], rest. simpl. intuition.
      * intros [before [after [H [Hv Hb]]]].
        destruct before as [|w before]; simpl in H.
        -- congruence.
        -- injection H as -> _. rewrite Hb in Hu by (left; reflexivity).
           discriminate.
    + rewrite IH. split.
      * intros [before [after [H [Hv Hb]]]].
        exists (u :: before), after. simpl. rewrite H. repeat split; auto.
        intros w [<-|Hw]; auto.
      * intros [before [after [H [Hv Hb]]]].
        destruct before as [|w before]; simpl in H.
        -- injection H as -> _. congruence.
        -- injection H as _ H. exists before, after. repeat split; auto.
           intros; apply Hb; right; assumption.
Qed.

Lemma scan_variables_none (variables : list string) (key : string) :
  scan_variables variables key = None <->
  forall u, In u variables -> PyStr.contains u key = false.
Proof.
  induction variables as [|u rest IH]; simpl.
  - split; [intros _ w [] | reflexivity].
  - destruct (PyStr.contains u key) eqn:Hu.
    + split; [discriminate |].
      intros H. rewrite H in Hu by (left; reflexivity). discriminate.
    + rewrite IH. split.
      * intros H w [<-|Hw]; auto.
      * intros H w Hw. apply H. right; assumption.
Qed.

Lemma remove_from_skip (old t s : string) :
  PyStr.remove_from old (String.length t) (t ++ s) = PyStr.remove_from old 0 s.
Proof.
  induction t as [|c t IH]; simpl.
  - destruct s; reflexivity.
  - exact IH.
Qed.

(** [remove] drops a match at the head and goes on after it. *)
Lemma remove_match (old s : string) :
  old <> "" -> PyStr.remove old (old ++ s) = PyStr.remove old s.
Proof.
  destruct old as [|c old]; [congruence | intros _].
  unfold PyStr.remove.
  change (String c old ++ s)%string with (String c (old ++ s)).
  cbn [PyStr.remove_from].
  replace (prefix (String c old) (String c (old ++ s))) with true.
  - replace (String.length (String c old) - 1) with (String.length old)
      by (simpl; lia).
    apply remove_from_skip.
  - symmetry. apply (prefix_app (String c old) (String c (old ++ s))).
    exists s. reflexivity.
Qed.

(** [remove] copies a character at which [old] does not start. *)
Lemma remove_copy (old : string) (c : ascii) (s : string) :
  prefix old (String c s) = false ->
  PyStr.remove old (String c s) = String c (PyStr.remove old s).
Proof.
  intros Hp. destruct old as [|a old].
  - reflexivity.
  - unfold PyStr.remove. cbn [PyStr.remove_from]. rewrite Hp. reflexivity.
Qed.

(** Splitting on a character and joining with it gives the string back. *)
Lemma join_split (sep : ascii) (s : string) :
  PyStr.join (String sep "") (PyStr.split sep s) = s.
Proof.
  unfold PyStr.join.
  assert (Hne : forall t, PyStr.split sep t <> []).
  { intros [|c t]; simpl; [discriminate |].
    destruct (Ascii.eqb c sep); [discriminate |].
    destruct (PyStr.split sep t); discriminate. }
  induction s as [|c s IH]; [reflexivity |].
  simpl. destruct (Ascii.eqb c sep) eqn:Hc.
  - apply Ascii.eqb_eq in Hc. subst c.
    destruct (PyStr.split sep s) as [|w ws] eqn:Hs; [now apply Hne in Hs |].
    simpl in *. now rewrite IH.
  - destruct (PyStr.split sep s) as [|w ws] eqn:Hs; [now apply Hne in Hs |].
    destruct ws as [|w' ws]; simpl in *; now rewrite <- IH.
Qed.

(** ** Properties of [extract_parameter_name] *)

(** The three outcomes of a call, by the shortened key. *)
Lemma extract_parameter_name_cases (key : string) (variables : list string) :
  extract_parameter_name key variables =
  if PyStr.contains "stat" (shorten_csv key) then
    match scan_variables variables (shorten_csv key) with
    | Some v => Ok ("stat", v)
    | None => Raise UnboundLocalError
    end
  else
    match canonical_name key with
    | EmptyString => Raise IndexError
    | name =>
        match scan_variables variables (shorten_csv key) with
        | Some v => Ok (name, v)
        | None => Raise UnboundLocalError
        end
    end.
Proof.
  unfold extract_parameter_name, canonical_name.
  destruct (PyStr.contains "stat" (shorten_csv key)).
  - destruct (scan_variables variables (shorten_csv key)); reflexivity.
  - rewrite strip_trailing_spec, strip_tokens_fold.
    destruct (rstrip_underscores _); [reflexivity |].
    destruct (scan_variables variables (shorten_csv key)); reflexivity.
Qed.

(** C6, as amended: for a key whose shortened form has no ["stat"], in
    which [v] is the first supplied variable that occurs, and of which
    something other than underscores is left after the removals, the call
    returns the canonical name (the [.csv] shortening, then [";1"] and the
    eight tokens removed in order, then all trailing underscores
    stripped) together with [v]. *)
Theorem extract_parameter_name_canonical
  (key : string) (variables : list string) (v : string) :
  PyStr.contains "stat" (shorten_csv key) = false ->
  first_match variables (shorten_csv key) v ->
  canonical_name key <> "" ->
  extract_parameter_name key variables = Ok (canonical_name key, v).
Proof.
  intros Hstat Hv Hname.
  apply scan_variables_first in Hv.
  rewrite extract_parameter_name_cases, Hstat, Hv.
  destruct (canonical_name key); [congruence | reflexivity].
Qed.

Lemma extract_parameter_name_canonical_witness :
  extract_parameter_name
    "GENIEReWeight_SBN_v1_multisigma_foo_momentum_gev;1"
    ["costheta"; "momentum_gev"]
  = Ok ("foo", "momentum_gev").
Proof.
  apply (extract_parameter_name_canonical
           "GENIEReWeight_SBN_v1_multisigma_foo_momentum_gev;1"
           ["costheta"; "momentum_gev"] "momentum_gev").
  - reflexivity.
  - exists ["costheta"], []. repeat split.
    intros u [<-|[]]. reflexivity.
  - vm_compute. discriminate.
Defined.

(** C6 as stated fails: the key below has no ["stat"] and contains the
    variable, yet the call does not return its canonical name (the empty
    string); it raises [IndexError]. *)
Lemma extract_parameter_name_canonical_counterexample :
  PyStr.contains "stat" (shorten_csv "multisigma_costheta;1") = false /\
  first_match ["costheta"] (shorten_csv "multisigma_costheta;1") "costheta" /\
  extract_parameter_name "multisigma_costheta;1" ["costheta"]
    <> Ok (canonical_name "multisigma_costheta;1", "costheta") /\
  extract_parameter_name "multisigma_costheta;1" ["costheta"]
    = Raise IndexError.
Proof.
  repeat split.
  - exists [], []. repeat split. intros u [].
  - vm_compute. discriminate.
Qed.

(** C7: for a key whose shortened form contains ["stat"] and in which [v]
    is the first supplied variable that occurs, the call returns
    [("stat", v)]; none of the removals is applied. *)
Theorem extract_parameter_name_stat
  (key : string) (variables : list string) (v : string) :
  PyStr.contains "stat" (shorten_csv key) = true ->
  first_match variables (shorten_csv key) v ->
  extract_parameter_name key variables = Ok ("stat", v).
Proof.
  intros Hstat Hv. apply scan_variables_first in Hv.
  now rewrite extract_parameter_name_cases, Hstat, Hv.
Qed.

Lemma extract_parameter_name_stat_witness :
  extract_parameter_name "stat_costheta_cv.csv" ["costheta"; "momentum_gev"]
  = Ok ("stat", "costheta").
Proof.
  apply (extract_parameter_name_stat
           "stat_costheta_cv.csv" ["costheta"; "momentum_gev"] "costheta").
  - reflexivity.
  - exists [], ["momentum_gev"]. repeat split. intros u [].
Defined.

(** X2, the variable name of a call: one that is returned is the first
    supplied variable, in list order, that occurs in the shortened key;
    when no supplied variable occurs the call never returns, the read of
    the unbound local raises [UnboundLocalError], unless the key has no
    ["stat"] and nothing but underscores is left of it after the removals,
    where the loop has raised [IndexError] before. *)
Lemma extract_parameter_name_variable
  (key : string) (variables : list string) :
  (forall name v,
      extract_parameter_name key variables = Ok (name, v) ->
      first_match variables (shorten_csv key) v) /\
  ((forall u, In u variables -> PyStr.contains u (shorten_csv key) = false) ->
   extract_parameter_name key variables =
   Raise (if PyStr.contains "stat" (shorten_csv key) then UnboundLocalError
          else match canonical_name key with
               | EmptyString => IndexError
               | _ => UnboundLocalError
               end)).
Proof.
  rewrite extract_parameter_name_cases. split.
  - intros name v H. apply scan_variables_first.
    destruct (PyStr.contains "stat" (shorten_csv key)).
    + destruct (scan_variables variables (shorten_csv key));
        [injection H as _ ->; reflexivity | discriminate].
    + destruct (canonical_name key); [discriminate |].
      destruct (scan_variables variables (shorten_csv key));
        [injection H as _ ->; reflexivity | discriminate].
  - intros Hnone. apply scan_variables_none in Hnone. rewrite Hnone.
    destruct (PyStr.contains "stat" (shorten_csv key)); [reflexivity |].
    destruct (canonical_name key); reflexivity.
Qed.

(** C8: in ["foo"] none of the supplied variables occurs; the call does
    not raise a [LookupError], it fails on reading the local [var_name]
    that the loop never assigned, with [UnboundLocalError]. *)
Theorem extract_parameter_name_unbound_variable :
  (forall u, In u ["costheta"; "momentum_gev"] ->
             PyStr.contains u (shorten_csv "foo") = false) /\
  extract_parameter_name "foo" ["costheta"; "momentum_gev"]
    = Raise UnboundLocalError /\
  ~ (exists e, extract_parameter_name "foo" ["costheta"; "momentum_gev"]
               = Raise e /\ is_LookupError e = true).
Proof.
  split; [| split].
  - intros u [<-|[<-|[]]]; reflexivity.
  - reflexivity.
  - intros [e [He Hl]]. vm_compute in He. injection He as <-. discriminate.
Qed.

(** C9: the key ["multisigma_costheta;1"] is consumed whole by the
    removals, so the stripping loop reads the last character of an empty
    string and the call raises [IndexError]; a key of which only
    underscores are left is first stripped to the empty string and fails
    alike. *)
Theorem extract_parameter_name_index_error :
  strip_tokens (shorten_csv "multisigma_costheta;1") = "" /\
  extract_parameter_name "multisigma_costheta;1" ["costheta"]
    = Raise IndexError /\
  strip_tokens (shorten_csv "nsigma__costheta") = "_" /\
  extract_parameter_name "nsigma__costheta" ["costheta"] = Raise IndexError.
Proof. repeat split. Qed.

(** ** Lemmas on sums and arrays *)

Local Open Scope Q_scope.

Lemma index_sum_ext (n : nat) (f g : nat -> Q) :
  (forall i, (i < n)%nat -> f i == g i) -> index_sum n f == index_sum n g.
Proof.
  induction n as [|n IH]; intros H; simpl.
  - reflexivity.
  - rewrite IH by (intros; apply H; lia). rewrite (H n) by lia. reflexivity.
Qed.

Lemma index_sum_shift (n : nat) (f : nat -> Q) :
  index_sum (S n) f == f O + index_sum n (fun i => f (S i)).
Proof.
  induction n as [|n IH].
  - simpl. ring.
  - change (index_sum (S (S n)) f) with (index_sum (S n) f + f (S n)).
    rewrite IH. simpl. ring.
Qed.




Lemma zip_with_length (f : Q -> Q -> Q) (a b : vector) :
  List.length a = List.length b ->
  List.length (Np.zip_with f a b) = List.length a.
Proof.
  revert b. induction a as [|x a IH]; intros [|y b] H; simpl in *;
    try reflexivity; try discriminate.
  f_equal. apply IH. lia.
Qed.

Lemma zip_with_nth (f : Q -> Q -> Q) (a b : vector) (i : nat) :
  (i < List.length a)%nat -> (i < List.length b)%nat ->
  nth i (Np.zip_with f a b) 0 = f (nth i a 0) (nth i b 0).
Proof.
  revert b i. induction a as [|x a IH]; intros [|y b] [|i] Ha Hb;
    simpl in *; try lia; try reflexivity.
  apply IH; lia.
Qed.


(** ** Properties of [get_avg_fracunc] *)








(** ** Lemmas on [convert_smearing_to_response] *)

Lemma fold_rows_length (m : matrix) (acc : vector) (c : nat) :
  Forall (fun r => List.length r = c) m -> List.length acc = c ->
  List.length (fold_left (Np.zip_with Qplus) m acc) = c.
Proof.
  revert acc. induction m as [|row m IH]; intros acc Hm Hacc; simpl.
  - assumption.
  - inversion Hm; subst. apply IH; [assumption |].
    rewrite zip_with_length; congruence.
Qed.

Lemma fold_rows_nth (m : matrix) (acc : vector) (c j : nat) :
  Forall (fun r => List.length r = c) m -> List.length acc = c ->
  (j < c)%nat ->
  nth j (fold_left (Np.zip_with Qplus) m acc) 0
  == nth j acc 0 + index_sum (List.length m) (fun i => at2 m i j).
Proof.
  revert acc. induction m as [|row m IH]; intros acc Hm Hacc Hj.
  - simpl. ring.
  - inversion Hm as [|? ? Hrow Hrest]; subst.
    change (List.length (row :: m)) with (S (List.length m)).
    rewrite index_sum_shift.
    change (fold_left (Np.zip_with Qplus) (row :: m) acc)
      with (fold_left (Np.zip_with Qplus) m (Np.zip_with Qplus acc row)).
    rewrite IH; [| assumption | rewrite zip_with_length; congruence | assumption].
    rewrite zip_with_nth by lia.
    unfold at2. simpl. ring.
Qed.

(** [np.sum(smearing, axis=0)[j]] is the sum of column [j]. *)
Lemma sum_axis0_column (n : nat) (smearing : matrix) (j : nat) :
  is_matrix n n smearing -> (j < n)%nat ->
  nth j (Np.sum_axis0 smearing) 0 == column_sum n smearing j.
Proof.
  intros [Hrows Hcols] Hj. unfold Np.sum_axis0, column_sum.
  assert (Hc : Np.ncols smearing = n).
  { destruct smearing as [|r m]; simpl in *; [lia |].
    inversion Hcols; assumption. }
  rewrite Hc, (fold_rows_nth smearing (repeat 0 n) n j);
    [| assumption | apply repeat_length | assumption].
  rewrite nth_repeat, Hrows. ring.
Qed.

Lemma sum_axis0_length (n : nat) (smearing : matrix) :
  is_matrix n n smearing -> List.length (Np.sum_axis0 smearing) = n.
Proof.
  intros [Hrows Hcols]. unfold Np.sum_axis0.
  assert (Hc : Np.ncols smearing = n).
  { destruct smearing as [|r m]; simpl in *; [lia |].
    inversion Hcols; assumption. }
  rewrite Hc. apply fold_rows_length; [assumption | apply repeat_length].
Qed.

Lemma divide_row_length (a d : vector) (out : list cell) (mask : list bool)
  (c : nat) :
  List.length a = c -> List.length d = c -> List.length out = c ->
  List.length mask = c ->
  List.length (Np.divide_row a d out mask) = c.
Proof.
  revert a d out mask.
  induction c as [|c IH]; intros [|x a] [|y d] [|o out] [|w mask];
    simpl; intros; try lia.
  f_equal. apply IH; lia.
Qed.

Lemma divide_row_nth (a d : vector) (out : list cell) (mask : list bool)
  (c j : nat) :
  List.length a = c -> List.length d = c -> List.length out = c ->
  List.length mask = c -> (j < c)%nat ->
  nth j (Np.divide_row a d out mask) NonFinite =
  if nth j mask false then Np.true_divide (nth j a 0) (nth j d 0)
  else nth j out NonFinite.
Proof.
  revert a d out mask j.
  induction c as [|c IH]; intros [|x a] [|y d] [|o out] [|w mask] j;
    simpl; intros; try lia.
  destruct j as [|j]; [reflexivity |].
  apply IH; lia.
Qed.

Lemma divide_length (a : matrix) (d : vector) (out : list (list cell))
  (mask : list bool) :
  List.length a = List.length out ->
  List.length (Np.divide a d out mask) = List.length a.
Proof.
  revert out. induction a as [|ra a IH]; intros [|ro out] H; simpl in *;
    try reflexivity; try discriminate.
  f_equal. apply IH. lia.
Qed.

Lemma divide_nth (a : matrix) (d : vector) (out : list (list cell))
  (mask : list bool) (i : nat) :
  List.length a = List.length out -> (i < List.length a)%nat ->
  nth i (Np.divide a d out mask) [] =
  Np.divide_row (nth i a []) d (nth i out []) mask.
Proof.
  revert out i. induction a as [|ra a IH]; intros [|ro out] [|i] H Hi;
    simpl in *; try lia; try reflexivity.
  apply IH; lia.
Qed.

Lemma map_nth_in {A B : Type} (f : A -> B) (l : list A) (i : nat)
  (d : A) (d' : B) :
  (i < List.length l)%nat -> nth i (map f l) d' = f (nth i l d).
Proof.
  revert i. induction l as [|x l IH]; intros [|i] Hi; simpl in *;
    try lia; try reflexivity.
  apply IH. lia.
Qed.

Lemma nth_row_length {A : Type} (n c i : nat) (m : list (list A)) :
  is_matrix n c m -> (i < n)%nat -> List.length (nth i m []) = c.
Proof.
  intros [Hrows Hcols] Hi.
  rewrite Forall_forall in Hcols. apply Hcols. apply nth_In. lia.
Qed.

Lemma multiply_rows_matrix (n : nat) (smearing : matrix) (eff : vector) :
  is_matrix n n smearing -> List.length eff = n ->
  is_matrix n n (Np.multiply_rows smearing eff).
Proof.
  intros [Hrows Hcols] Heff. split.
  - unfold Np.multiply_rows. rewrite length_map. assumption.
  - unfold Np.multiply_rows. apply Forall_map.
    apply Forall_impl with (2 := Hcols). intros r Hr.
    unfold Np.multiply. rewrite zip_with_length; congruence.
Qed.

Lemma zeros_like_matrix (n : nat) (smearing : matrix) :
  is_matrix n n smearing -> is_matrix n n (Np.zeros_like smearing).
Proof.
  intros [Hrows Hcols]. split.
  - unfold Np.zeros_like. rewrite length_map. assumption.
  - unfold Np.zeros_like. apply Forall_map.
    apply Forall_impl with (2 := Hcols). intros r Hr.
    rewrite length_map. assumption.
Qed.

Lemma zeros_like_nth (n : nat) (smearing : matrix) (i j : nat) :
  is_matrix n n smearing -> (i < n)%nat -> (j < n)%nat ->
  nth j (nth i (Np.zeros_like smearing) []) NonFinite = Finite 0.
Proof.
  intros Hm Hi Hj. unfold Np.zeros_like.
  rewrite (map_nth_in _ smearing i []) by (destruct Hm; lia).
  rewrite (map_nth_in _ _ j 0); [reflexivity |].
  rewrite (nth_row_length n n i smearing Hm Hi). assumption.
Qed.

Lemma multiply_rows_nth (n : nat) (smearing : matrix) (eff : vector)
  (i j : nat) :
  is_matrix n n smearing -> List.length eff = n ->
  (i < n)%nat -> (j < n)%nat ->
  nth j (nth i (Np.multiply_rows smearing eff) []) 0
  = at2 smearing i j * at1 eff j.
Proof.
  intros Hm Heff Hi Hj. unfold Np.multiply_rows.
  rewrite (map_nth_in _ smearing i []) by (destruct Hm; lia).
  unfold Np.multiply. rewrite zip_with_nth.
  - reflexivity.
  - rewrite (nth_row_length n n i smearing Hm Hi). assumption.
  - lia.
Qed.

(** One cell of the response: the guarded quotient. *)
Lemma response_cell (n : nat) (smearing : matrix) (eff : vector) (i j : nat) :
  is_matrix n n smearing -> List.length eff = n ->
  (i < n)%nat -> (j < n)%nat ->
  cell_at (convert_smearing_to_response smearing eff) i j =
  if Qeq_bool (nth j (Np.sum_axis0 smearing) 0) 0 then Finite 0
  else Finite (at2 smearing i j * at1 eff j
               / nth j (Np.sum_axis0 smearing) 0).
Proof.
  intros Hm Heff Hi Hj.
  pose proof (multiply_rows_matrix n smearing eff Hm Heff) as Hmul.
  pose proof (zeros_like_matrix n smearing Hm) as Hzero.
  pose proof (sum_axis0_length n smearing Hm) as Hden.
  unfold cell_at, convert_smearing_to_response.
  rewrite divide_nth;
    [| destruct Hmul as [-> _]; destruct Hzero as [-> _]; reflexivity
     | destruct Hmul as [-> _]; assumption].
  rewrite (divide_row_nth _ _ _ _ n j);
    [| apply (nth_row_length n n); assumption
     | assumption
     | apply (nth_row_length n n); assumption
     | unfold Np.not_equal_zero; rewrite length_map; assumption
     | assumption].
  unfold Np.not_equal_zero.
  rewrite (map_nth_in _ (Np.sum_axis0 smearing) j 0) by lia.
  rewrite zeros_like_nth with (n := n) by assumption.
  rewrite multiply_rows_nth with (n := n) by assumption.
  unfold Np.true_divide.
  destruct (Qeq_bool (nth j (Np.sum_axis0 smearing) 0) 0); reflexivity.
Qed.

Lemma response_matrix (n : nat) (smearing : matrix) (eff : vector) :
  is_matrix n n smearing -> List.length eff = n ->
  is_matrix n n (convert_smearing_to_response smearing eff).
Proof.
  intros Hm Heff.
  pose proof (multiply_rows_matrix n smearing eff Hm Heff) as Hmul.
  pose proof (zeros_like_matrix n smearing Hm) as Hzero.
  pose proof (sum_axis0_length n smearing Hm) as Hden.
  unfold convert_smearing_to_response.
  assert (Hlen : List.length (Np.multiply_rows smearing eff)
                 = List.length (Np.zeros_like smearing))
    by (destruct Hmul as [-> _]; destruct Hzero as [-> _]; reflexivity).
  split.
  - rewrite divide_length by assumption. apply Hmul.
  - apply Forall_forall. intros row Hrow.
    apply In_nth with (d := []) in Hrow. destruct Hrow as [i [Hi <-]].
    rewrite divide_length in Hi by assumption.
    rewrite divide_nth by assumption.
    assert (Hin : (i < n)%nat) by (destruct Hmul as [Hr _]; lia).
    apply divide_row_length.
    + apply (nth_row_length n n); assumption.
    + assumption.
    + apply (nth_row_length n n); assumption.
    + unfold Np.not_equal_zero. rewrite length_map. assumption.
Qed.

(** ** Properties of [convert_smearing_to_response] *)

(** C2: entry [(i, j)] of the response is [smearing[i][j] * eff[j]]
    divided by the sum of column [j] of the unscaled smearing matrix
    (where that sum is not zero, the case of C3); and with an efficiency
    of one in every bin and columns that each sum to one, the response
    has the entries of the smearing matrix. *)
Theorem convert_smearing_to_response_formula
  (n : nat) (smearing : matrix) (eff : vector) :
  is_matrix n n smearing -> List.length eff = n ->
  is_matrix n n (convert_smearing_to_response smearing eff) /\
  (forall i j, (i < n)%nat -> (j < n)%nat ->
     ~ column_sum n smearing j == 0 ->
     exists q,
       cell_at (convert_smearing_to_response smearing eff) i j = Finite q /\
       q == at2 smearing i j * at1 eff j / column_sum n smearing j) /\
  ((forall j, (j < n)%nat -> at1 eff j == 1) ->
   (forall j, (j < n)%nat -> column_sum n smearing j == 1) ->
   forall i j, (i < n)%nat -> (j < n)%nat ->
     exists q,
       cell_at (convert_smearing_to_response smearing eff) i j = Finite q /\
       q == at2 smearing i j).
Proof.
  intros Hm Heff. split; [apply response_matrix; assumption |].
  assert (Hcell : forall i j, (i < n)%nat -> (j < n)%nat ->
            ~ column_sum n smearing j == 0 ->
            exists q,
              cell_at (convert_smearing_to_response smearing eff) i j
              = Finite q /\
              q == at2 smearing i j * at1 eff j / column_sum n smearing j).
  { intros i j Hi Hj Hsum.
    rewrite (response_cell n) by assumption.
    pose proof (sum_axis0_column n smearing j Hm Hj) as Hcol.
    destruct (Qeq_bool (nth j (Np.sum_axis0 smearing) 0) 0) eqn:Hz.
    - apply Qeq_bool_iff in Hz. rewrite Hcol in Hz. contradiction.
    - eexists. split; [reflexivity |]. rewrite Hcol. reflexivity. }
  split; [exact Hcell |].
  intros Hone Hunit i j Hi Hj.
  destruct (Hcell i j Hi Hj) as [q [Hq Hval]].
  - rewrite (Hunit j Hj). discriminate.
  - exists q. split; [assumption |].
    rewrite Hval, (Hone j Hj), (Hunit j Hj). field.
Qed.

Lemma convert_smearing_to_response_formula_witness :
  (exists q,
     cell_at (convert_smearing_to_response
                [[1 # 2; 1 # 4]; [3 # 2; 3 # 4]] [1 # 3; 1 # 5]) 1 0
     = Finite q /\
     q == at2 [[1 # 2; 1 # 4]; [3 # 2; 3 # 4]] 1 0 * at1 [1 # 3; 1 # 5] 0
          / column_sum 2 [[1 # 2; 1 # 4]; [3 # 2; 3 # 4]] 0) /\
  (exists q,
     cell_at (convert_smearing_to_response
                [[1 # 2; 1 # 4]; [1 # 2; 3 # 4]] [1; 1]) 1 1
     = Finite q /\
     q == at2 [[1 # 2; 1 # 4]; [1 # 2; 3 # 4]] 1 1).
Proof.
  split.
  - destruct (convert_smearing_to_response_formula
                2 [[1 # 2; 1 # 4]; [3 # 2; 3 # 4]] [1 # 3; 1 # 5])
      as [_ [Hcell _]].
    + split; [reflexivity | repeat constructor].
    + reflexivity.
    + apply Hcell; [lia | lia | vm_compute; discriminate].
  - destruct (convert_smearing_to_response_formula
                2 [[1 # 2; 1 # 4]; [1 # 2; 3 # 4]] [1; 1])
      as [_ [_ Hsame]].
    + split; [reflexivity | repeat constructor].
    + reflexivity.
    + apply Hsame; try lia.
      * intros [|[|j]] Hj; [reflexivity | reflexivity | lia].
      * intros [|[|j]] Hj; [reflexivity | reflexivity | lia].
Defined.

(** C3: where the sum of column [j] of the smearing matrix is zero, the
    call returns a matrix of the same shape in which every entry of
    column [j] is the finite value zero. *)
Theorem convert_smearing_to_response_zero_column
  (n : nat) (smearing : matrix) (eff : vector) (j : nat) :
  is_matrix n n smearing -> List.length eff = n -> (j < n)%nat ->
  column_sum n smearing j == 0 ->
  is_matrix n n (convert_smearing_to_response smearing eff) /\
  forall i, (i < n)%nat ->
    cell_at (convert_smearing_to_response smearing eff) i j = Finite 0.
Proof.
  intros Hm Heff Hj Hsum. split; [apply response_matrix; assumption |].
  intros i Hi. rewrite (response_cell n) by assumption.
  rewrite <- (sum_axis0_column n smearing j Hm Hj) in Hsum.
  apply Qeq_bool_iff in Hsum. rewrite Hsum. reflexivity.
Qed.

Lemma convert_smearing_to_response_zero_column_witness :
  cell_at (convert_smearing_to_response
             [[0; 1 # 4]; [0; 3 # 4]] [1 # 2; 1 # 2]) 0 0 = Finite 0 /\
  cell_at (convert_smearing_to_response
             [[0; 1 # 4]; [0; 3 # 4]] [1 # 2; 1 # 2]) 1 0 = Finite 0.
Proof.
  destruct (convert_smearing_to_response_zero_column
              2 [[0; 1 # 4]; [0; 3 # 4]] [1 # 2; 1 # 2] 0) as [_ Hzero].
  - split; [reflexivity | repeat constructor].
  - reflexivity.
  - lia.
  - reflexivity.
  - split; apply Hzero; lia.
Defined.

Local Close Scope Q_scope.

(** ** Properties of the group list *)

Section GroupOrder.

Context {K : Type}.

Lemma not_in_spec (g : string) (groups : list string) :
  not_in g groups = true <-> ~ In g groups.
Proof.
  unfold not_in. rewrite negb_true_iff. split.
  - intros Hex Hin.
    assert (existsb (String.eqb g) groups = true); [| congruence].
    apply existsb_exists. exists g. split; [assumption |].
    apply String.eqb_refl.
  - intros Hnot. destruct (existsb (String.eqb g) groups) eqn:Hex;
      [| reflexivity].
    apply existsb_exists in Hex. destruct Hex as [h [Hin Heq]].
    apply String.eqb_eq in Heq. subst h. contradiction.
Qed.

Lemma not_in_app (g : string) (l1 l2 : list string) :
  not_in g (l1 ++ l2) = not_in g l1 && not_in g l2.
Proof.
  unfold not_in. rewrite existsb_app. apply negb_orb.
Qed.

Lemma filter_filter (f g : string -> bool) (l : list string) :
  filter f (filter g l) = filter (fun x => g x && f x) l.
Proof.
  induction l as [|x l IH]; simpl; [reflexivity |].
  destruct (g x); simpl; [destruct (f x) |]; now rewrite IH.
Qed.

(** The loop, started from any list [acc] of groups already seen, adds
    the first occurrences of the labels that [acc] lacks. *)
Lemma loop_first_seen (values acc : list string) :
  fold_left group_step values acc
  = acc ++ filter (fun g => not_in g acc) (first_seen values).
Proof.
  revert acc. induction values as [|g rest IH]; intros acc; simpl.
  - now rewrite app_nil_r.
  - rewrite IH. unfold group_step.
    destruct (not_in g acc) eqn:Hg.
    + rewrite <- app_assoc. simpl. do 2 f_equal.
      rewrite filter_filter. apply filter_ext. intros h.
      rewrite not_in_app. unfold not_in at 2. simpl.
      rewrite orb_false_r. apply andb_comm.
    + rewrite filter_filter. f_equal. apply filter_ext. intros h.
      destruct (String.eqb h g) eqn:Hh; simpl; [| reflexivity].
      apply String.eqb_eq in Hh. subst h. assumption.
Qed.

Lemma first_seen_In (values : list string) (g : string) :
  In g (first_seen values) <-> In g values.
Proof.
  induction values as [|h rest IH]; simpl; [reflexivity |].
  rewrite filter_In, IH, negb_true_iff, String.eqb_neq.
  destruct (string_dec h g) as [->|Hne]; intuition congruence.
Qed.

Lemma first_seen_NoDup (values : list string) : NoDup (first_seen values).
Proof.
  induction values as [|h rest IH]; simpl; constructor.
  - rewrite filter_In, negb_true_iff, String.eqb_neq. intuition.
  - apply NoDup_filter. assumption.
Qed.

Lemma first_seen_app (l1 l2 : list string) :
  first_seen (l1 ++ l2)
  = first_seen l1
    ++ filter (fun g => not_in g (first_seen l1)) (first_seen l2).
Proof.
  pose proof (loop_first_seen (l1 ++ l2) []) as H.
  rewrite fold_left_app, (loop_first_seen l1 []) in H.
  rewrite loop_first_seen in H. simpl in H.
  rewrite !filter_true in H. symmetry. exact H.
Qed.

(** C10: the group list is the sequence of values of the mapping with
    every label kept at its first occurrence only: it has no
    duplicates, holds exactly the labels of the mapping, keeps the
    groups of any leading part of the mapping in front and in their
    order, and is a function of the sequence of values alone, so that
    equal mappings give equal lists. *)
Theorem draw_groups_first_seen (categories : list (K * string)) :
  draw_groups categories = first_seen (dict_values categories) /\
  NoDup (draw_groups categories) /\
  (forall g, In g (draw_groups categories) <->
             exists k, In (k, g) categories) /\
  (forall c1 c2, categories = c1 ++ c2 ->
     draw_groups categories
     = draw_groups c1
       ++ filter (fun g => not_in g (draw_groups c1)) (draw_groups c2)) /\
  (forall categories' : list (K * string),
     dict_values categories' = dict_values categories ->
     draw_groups categories' = draw_groups categories).
Proof.
  assert (Heq : forall c : list (K * string),
             draw_groups c = first_seen (dict_values c)).
  { intros c. unfold draw_groups.
    rewrite loop_first_seen. simpl. apply filter_true. }
  split; [apply Heq |]. split; [| split; [| split]].
  - rewrite Heq. apply first_seen_NoDup.
  - intros g. rewrite Heq, first_seen_In. unfold dict_values.
    rewrite in_map_iff. split.
    + intros [[k h] [Hh Hin]]. simpl in Hh. subst h. eauto.
    + intros [k Hin]. exists (k, g). auto.
  - intros c1 c2 ->. rewrite !Heq. unfold dict_values.
    rewrite map_app. apply first_seen_app.
  - intros categories' Hvalues. rewrite !Heq. now rewrite Hvalues.
Qed.

End GroupOrder.

(** ** Further properties of [extract_parameter_name] *)

Local Open Scope string_scope.

Lemma rstrip_underscores_last (s : string) :
  PyStr.last (rstrip_underscores s) <> Some "_"%char.
Proof.
  induction s as [|c s IH]; simpl; [discriminate |].
  destruct (rstrip_underscores s) as [|d r] eqn:Hr.
  - destruct (Ascii.eqb c "_") eqn:Hc; simpl; [discriminate |].
    intros [= ->]. discriminate.
  - exact IH.
Qed.

Lemma remove_absent (old s : string) :
  PyStr.contains old s = false -> PyStr.remove old s = s.
Proof.
  induction s as [|c s IH]; intros H.
  - destruct old; reflexivity.
  - rewrite contains_unfold in H.
    destruct (prefix old (String c s)) eqn:Hp; [discriminate |].
    rewrite remove_copy by assumption. now rewrite IH.
Qed.

Lemma fold_remove_absent (tokens : list string) (key : string) :
  (forall tok, In tok tokens -> PyStr.contains tok key = false) ->
  fold_left (fun k tok => PyStr.remove tok k) tokens key = key.
Proof.
  induction tokens as [|tok rest IH]; intros H; simpl; [reflexivity |].
  rewrite remove_absent by (apply H; left; reflexivity).
  apply IH. intros; apply H; right; assumption.
Qed.

Lemma split_last_token (sep : ascii) (s : string) :
  exists parts tail,
    PyStr.split sep s = (parts ++ [tail])%list /\
    PyStr.contains (String sep "") tail = false.
Proof.
  induction s as [|c s [parts [tail [Hs Ht]]]].
  - exists [], "". split; reflexivity.
  - simpl. rewrite Hs. destruct (Ascii.eqb c sep) eqn:Hc.
    + exists ("" :: parts), tail. split; [reflexivity | assumption].
    + destruct parts as [|w ws]; simpl.
      * exists [], (String c tail). split; [reflexivity |].
        rewrite contains_unfold. simpl.
        destruct (ascii_dec sep c) as [->|_];
          [rewrite Ascii.eqb_refl in Hc; discriminate | assumption].
      * exists (String c w :: ws), tail. split; [reflexivity | assumption].
Qed.

Lemma append_assoc (a b c : string) :
  ((a ++ b) ++ c = a ++ (b ++ c))%string.
Proof.
  induction a as [|x a IH]; simpl; [reflexivity | now rewrite IH].
Qed.

Lemma join_last_token (sep : string) (parts : list string) (tail : string) :
  PyStr.join sep (parts ++ [tail]) =
  match parts with
  | [] => tail
  | _ :: _ => (PyStr.join sep parts ++ sep ++ tail)%string
  end.
Proof.
  unfold PyStr.join. induction parts as [|w ws IH]; [reflexivity |].
  destruct ws as [|w' ws].
  - simpl. reflexivity.
  - change (String.concat sep ((w :: w' :: ws) ++ [tail]))
      with (w ++ sep ++ String.concat sep ((w' :: ws) ++ [tail]))%string.
    rewrite IH.
    change (String.concat sep (w :: w' :: ws))
      with (w ++ sep ++ String.concat sep (w' :: ws))%string.
    rewrite !append_assoc. reflexivity.
Qed.

Lemma shorten_csv_parts (key : string) :
  PyStr.contains ".csv" key = true ->
  exists parts tail,
    PyStr.split "_" (PyStr.remove ".csv" key) = (parts ++ [tail])%list /\
    PyStr.contains "_" tail = false /\
    shorten_csv key = PyStr.join "_" parts.
Proof.
  intros Hcsv. unfold shorten_csv. rewrite Hcsv.
  destruct (split_last_token "_" (PyStr.remove ".csv" key))
    as [parts [tail [Hs Ht]]].
  exists parts, tail. rewrite Hs, removelast_last. auto.
Qed.

(** X1: a name that is returned is never empty and never ends with an
    underscore. *)
Theorem extract_parameter_name_name_shape
  (key : string) (variables : list string) (name v : string) :
  extract_parameter_name key variables = Ok (name, v) ->
  name <> "" /\ PyStr.last name <> Some "_"%char.
Proof.
  rewrite extract_parameter_name_cases.
  destruct (PyStr.contains "stat" (shorten_csv key)).
  - destruct (scan_variables variables (shorten_csv key));
      [| discriminate].
    intros [= <- _]. split; discriminate.
  - pose proof (rstrip_underscores_last
                  (fold_left (fun k tok => PyStr.remove tok k)
                             removed_tokens (shorten_csv key))) as Hlast.
    fold (canonical_name key) in Hlast.
    destruct (canonical_name key) as [|c r]; [discriminate |].
    destruct (scan_variables variables (shorten_csv key));
      [| discriminate].
    intros [= <- _]. split; [discriminate | assumption].
Qed.

Lemma extract_parameter_name_name_shape_witness :
  "foo" <> "" /\ PyStr.last "foo" <> Some "_"%char.
Proof.
  apply (extract_parameter_name_name_shape
           "GENIEReWeight_SBN_v1_multisigma_foo_momentum_gev;1"
           ["costheta"; "momentum_gev"] "foo" "momentum_gev").
  reflexivity.
Defined.

(** X3: the [.csv] shortening cuts the name, once every [".csv"] is
    removed from it, at its last underscore: what is dropped is that
    underscore and the underscore-free text after it; a name without any
    underscore is dropped whole. *)
Theorem shorten_csv_drops_last_token (key : string) :
  PyStr.contains ".csv" key = true ->
  exists tail,
    PyStr.contains "_" tail = false /\
    ((PyStr.remove ".csv" key = tail /\ shorten_csv key = "") \/
     PyStr.remove ".csv" key = (shorten_csv key ++ "_" ++ tail)%string).
Proof.
  intros Hcsv.
  destruct (shorten_csv_parts key Hcsv) as [parts [tail [Hs [Ht Hk]]]].
  exists tail. split; [assumption |].
  pose proof (join_split "_" (PyStr.remove ".csv" key)) as Hj.
  rewrite Hs, join_last_token in Hj. rewrite Hk.
  destruct parts as [|w ws].
  - left. split; [now symmetry | reflexivity].
  - right. now symmetry.
Qed.

Lemma shorten_csv_drops_last_token_witness :
  exists tail,
    PyStr.contains "_" tail = false /\
    ((PyStr.remove ".csv" "stat_costheta_cv.csv" = tail /\
      shorten_csv "stat_costheta_cv.csv" = "") \/
     PyStr.remove ".csv" "stat_costheta_cv.csv"
     = (shorten_csv "stat_costheta_cv.csv" ++ "_" ++ tail)%string).
Proof.
  apply (shorten_csv_drops_last_token "stat_costheta_cv.csv").
  reflexivity.
Defined.

(** X4: a [.csv] key that has no underscore once [".csv"] is removed
    raises [IndexError], whatever the variables: the shortening leaves the
    empty string. *)
Theorem extract_parameter_name_csv_without_underscore
  (key : string) (variables : list string) :
  PyStr.contains ".csv" key = true ->
  PyStr.contains "_" (PyStr.remove ".csv" key) = false ->
  extract_parameter_name key variables = Raise IndexError.
Proof.
  intros Hcsv Hus.
  assert (Hshort : shorten_csv key = "").
  { destruct (shorten_csv_parts key Hcsv) as [parts [tail [Hs [Ht Hk]]]].
    destruct parts as [|w ws]; [rewrite Hk; reflexivity |].
    exfalso.
    pose proof (join_split "_" (PyStr.remove ".csv" key)) as Hj.
    rewrite Hs, join_last_token in Hj.
    assert (PyStr.contains "_" (PyStr.remove ".csv" key) = true);
      [| congruence].
    apply contains_occurs. eexists _, _. symmetry. exact Hj. }
  rewrite extract_parameter_name_cases. unfold canonical_name.
  rewrite Hshort. reflexivity.
Qed.

Lemma extract_parameter_name_csv_without_underscore_witness :
  extract_parameter_name "nominal.csv" ["costheta"; "momentum_gev"]
  = Raise IndexError.
Proof.
  apply (extract_parameter_name_csv_without_underscore
           "nominal.csv" ["costheta"; "momentum_gev"]); reflexivity.
Defined.

(** X5: a key with no [".csv"], no ["stat"] and none of the removed
    tokens, which does not end with an underscore, is returned as it is,
    with the first matching variable: a variable other than the two
    hard-coded ones stays part of the name. *)
Theorem extract_parameter_name_clean_key
  (key : string) (variables : list string) (v : string) (c : ascii) :
  PyStr.contains ".csv" key = false ->
  PyStr.contains "stat" key = false ->
  (forall tok, In tok removed_tokens -> PyStr.contains tok key = false) ->
  PyStr.last key = Some c -> c <> "_"%char ->
  first_match variables key v ->
  extract_parameter_name key variables = Ok (key, v).
Proof.
  intros Hcsv Hstat Htok Hlast Hc Hv.
  assert (Hshort : shorten_csv key = key)
    by (unfold shorten_csv; now rewrite Hcsv).
  rewrite extract_parameter_name_cases. unfold canonical_name.
  rewrite Hshort, Hstat, fold_remove_absent by assumption.
  apply Ascii.eqb_neq in Hc.
  rewrite (rstrip_underscores_keep key c Hlast Hc).
  apply scan_variables_first in Hv. rewrite Hv.
  destruct key; [discriminate | reflexivity].
Qed.

Lemma extract_parameter_name_clean_key_witness :
  extract_parameter_name "flux_energy" ["costheta"; "energy"]
  = Ok ("flux_energy", "energy").
Proof.
  apply (extract_parameter_name_clean_key
           "flux_energy" ["costheta"; "energy"] "energy" "y"%char).
  - reflexivity.
  - reflexivity.
  - intros tok Htok. simpl in Htok.
    repeat (destruct Htok as [<-|Htok]; [reflexivity |]). destruct Htok.
  - reflexivity.
  - discriminate.
  - exists ["costheta"], []. repeat split.
    intros u [<-|[]]. reflexivity.
Defined.

Local Open Scope Q_scope.

(** ** Further properties of the group list *)

Local Close Scope Q_scope.
Local Open Scope list_scope.

Lemma draw_groups_eq {K : Type} (categories : list (K * string)) :
  draw_groups categories = first_seen (dict_values categories).
Proof.
  unfold draw_groups. rewrite loop_first_seen. simpl. apply filter_true.
Qed.

Lemma filter_length_le (f : string -> bool) (l : list string) :
  List.length (filter f l) <= List.length l.
Proof.
  induction l as [|x l IH]; simpl; [lia |].
  destruct (f x); simpl; lia.
Qed.

Lemma first_seen_length (values : list string) :
  List.length (first_seen values) <= List.length values.
Proof.
  induction values as [|g rest IH]; simpl; [lia |].
  pose proof (filter_length_le (fun h => negb (String.eqb h g))
                               (first_seen rest)).
  lia.
Qed.

Lemma filter_absent (g : string) (l : list string) :
  ~ In g l -> filter (fun h => negb (String.eqb h g)) l = l.
Proof.
  induction l as [|x l IH]; intros Hg; simpl; [reflexivity |].
  destruct (String.eqb x g) eqn:Hx.
  - apply String.eqb_eq in Hx. subst x. exfalso. apply Hg. left. reflexivity.
  - simpl. rewrite IH; [reflexivity |]. intros H. apply Hg. right. assumption.
Qed.

Lemma first_seen_distinct (values : list string) :
  NoDup values -> first_seen values = values.
Proof.
  induction values as [|g rest IH]; intros Hnd; simpl; [reflexivity |].
  inversion Hnd; subst. rewrite IH by assumption.
  now rewrite filter_absent.
Qed.

(** X13: the group list is never longer than the mapping, and it is the
    sequence of values itself exactly when no label occurs twice. *)
Theorem draw_groups_distinct_labels {K : Type}
  (categories : list (K * string)) :
  List.length (draw_groups categories) <= List.length categories /\
  (draw_groups categories = dict_values categories <->
   NoDup (dict_values categories)).
Proof.
  rewrite draw_groups_eq. split.
  - pose proof (first_seen_length (dict_values categories)) as H.
    unfold dict_values in *. rewrite length_map in H. exact H.
  - split.
    + intros H. rewrite <- H. apply first_seen_NoDup.
    + apply first_seen_distinct.
Qed.

(** ** Properties of the plotting functions *)

Local Open Scope Q_scope.

Lemma nth_tl (l : vector) (i : nat) : nth i (tl l) 0 = nth (S i) l 0.
Proof. destruct l as [|x l]; [destruct i |]; reflexivity. Qed.

Lemma removelast_length (l : vector) :
  List.length (removelast l) = (List.length l - 1)%nat.
Proof.
  induction l as [|x [|y l] IH]; try reflexivity.
  change (removelast (x :: y :: l)) with (x :: removelast (y :: l)).
  simpl List.length in *. lia.
Qed.

Lemma nth_removelast (l : vector) (i : nat) :
  (S i < List.length l)%nat -> nth i (removelast l) 0 = nth i l 0.
Proof.
  revert i. induction l as [|x [|y l] IH]; intros i Hi.
  - simpl in Hi. lia.
  - simpl in Hi. lia.
  - change (removelast (x :: y :: l)) with (x :: removelast (y :: l)).
    destruct i as [|i]; [reflexivity |].
    simpl nth. apply IH. simpl in *. lia.
Qed.

Lemma tl_length (l : vector) :
  List.length (tl l) = (List.length l - 1)%nat.
Proof. destruct l; simpl; lia. Qed.

Lemma halve_nth (a : vector) (i : nat) :
  (i < List.length a)%nat -> nth i (Plot.halve a) 0 = nth i a 0 / 2.
Proof.
  intros Hi. unfold Plot.halve.
  exact (map_nth_in (fun s => s / 2) a i 0 0 Hi).
Qed.

(** The bin centres of [plot_square_with_bins] (line 74). *)
Lemma square_centers (edges : vector) :
  List.length
    (Plot.halve (Np.zip_with Qplus (removelast edges) (tl edges)))
  = (List.length edges - 1)%nat /\
  forall i, (S i < List.length edges)%nat ->
    nth i (Plot.halve (Np.zip_with Qplus (removelast edges) (tl edges))) 0
    = (nth i edges 0 + nth (S i) edges 0) / 2.
Proof.
  assert (Hlen : List.length (Np.zip_with Qplus (removelast edges) (tl edges))
                 = (List.length edges - 1)%nat).
  { rewrite zip_with_length; [apply removelast_length |].
    rewrite tl_length, removelast_length. reflexivity. }
  split.
  - unfold Plot.halve. rewrite length_map. assumption.
  - intros i Hi. rewrite halve_nth by lia.
    rewrite zip_with_nth;
      [| rewrite removelast_length; lia | rewrite tl_length; lia].
    rewrite nth_tl, nth_removelast by assumption. reflexivity.
Qed.

Lemma is_matrix_ncols (r c : nat) (m : matrix) :
  is_matrix r c m -> (0 < r)%nat -> Np.ncols m = c.
Proof.
  intros [Hrows Hcols] Hr. destruct m as [|row m]; simpl in *; [lia |].
  inversion Hcols. assumption.
Qed.

(** X17: on an N x N array with N + 1 bin edges, the mesh handed to
    [pcolormesh] is two N x N arrays; entry [(i, j)] of the first is the
    midpoint of bin [j] and entry [(i, j)] of the second the midpoint of
    bin [i]. *)
Theorem plot_square_with_bins_mesh
  (n : nat) (m : matrix) (bin_edges : vector) :
  is_matrix n n m -> (0 < n)%nat ->
  List.length bin_edges = (n + 1)%nat ->
  exists X Y,
    Plot.plot_square_with_bins m bin_edges = Plot.Accepted (X, Y) /\
    is_matrix n n X /\ is_matrix n n Y /\
    forall i j, (i < n)%nat -> (j < n)%nat ->
      at2 X i j = (nth j bin_edges 0 + nth (S j) bin_edges 0) / 2 /\
      at2 Y i j = (nth i bin_edges 0 + nth (S i) bin_edges 0) / 2.
Proof.
  intros Hm Hn Hlen. pose proof (is_matrix_ncols n n m Hm Hn) as Hc.
  destruct Hm as [Hrows _]. unfold Plot.plot_square_with_bins.
  rewrite Hc, Hrows, Nat.eqb_refl. simpl negb.
  assert (He : (List.length bin_edges =? n + 1)%nat = true)
    by (apply Nat.eqb_eq; assumption).
  rewrite He. simpl negb. cbv iota.
  destruct (square_centers bin_edges) as [Hclen Hcnth].
  set (centers := Plot.halve
                    (Np.zip_with Qplus (removelast bin_edges) (tl bin_edges)))
    in *.
  assert (Hcn : List.length centers = n) by lia.
  unfold Plot.meshgrid. eexists _, _. split; [reflexivity |].
  split; [| split].
  - split; [rewrite length_map; assumption |].
    apply Forall_map. apply Forall_forall. intros; assumption.
  - split; [rewrite length_map; assumption |].
    apply Forall_map. apply Forall_forall. intros.
    rewrite length_map. assumption.
  - intros i j Hi Hj. unfold at2. split.
    + rewrite (map_nth_in (fun _ : Q => centers) centers i 0) by lia.
      apply Hcnth. lia.
    + rewrite (map_nth_in (fun yi : Q => map (fun _ : Q => yi) centers)
                          centers i 0) by lia.
      rewrite (map_nth_in (fun _ : Q => nth i centers 0) centers j 0) by lia.
      apply Hcnth. lia.
Qed.

Lemma plot_square_with_bins_mesh_witness :
  exists X Y,
    Plot.plot_square_with_bins [[1; 2]; [3; 4]] [0; 1; 3]
    = Plot.Accepted (X, Y) /\
    is_matrix 2 2 X /\ is_matrix 2 2 Y /\
    forall i j, (i < 2)%nat -> (j < 2)%nat ->
      at2 X i j = (nth j [0; 1; 3] 0 + nth (S j) [0; 1; 3] 0) / 2 /\
      at2 Y i j = (nth i [0; 1; 3] 0 + nth (S i) [0; 1; 3] 0) / 2.
Proof.
  apply (plot_square_with_bins_mesh 2 [[1; 2]; [3; 4]] [0; 1; 3]).
  - split; [reflexivity | repeat constructor].
  - lia.
  - reflexivity.
Defined.


(** ** Lemmas on binary64 rounding *)

Local Open Scope Q_scope.

Lemma rne_near (y : Q) :
  - (1 # 2) <= inject_Z (F64.rne y) - y /\
  inject_Z (F64.rne y) - y <= 1 # 2.
Proof.
  unfold F64.rne.
  pose proof (Qfloor_le y) as Hlo. pose proof (Qlt_floor y) as Hhi.
  rewrite inject_Z_plus in Hhi. change (inject_Z 1) with 1 in Hhi.
  destruct (Qcompare_spec (y - inject_Z (Qfloor y)) (1 # 2)) as [He|Hl|Hg].
  - destruct (Z.even (Qfloor y));
      [| rewrite inject_Z_plus; change (inject_Z 1) with 1]; lra.
  - lra.
  - rewrite inject_Z_plus. change (inject_Z 1) with 1. lra.
Qed.

Lemma pow2_pos (e : Z) : 0 < F64.pow2 e.
Proof. unfold F64.pow2. apply Qpower_0_lt. reflexivity. Qed.

Lemma pow2_plus (a b : Z) : F64.pow2 (a + b) == F64.pow2 a * F64.pow2 b.
Proof. unfold F64.pow2. apply Qpower_plus. discriminate. Qed.

Lemma pow2_inject (a : Z) : (0 <= a)%Z -> F64.pow2 a == inject_Z (2 ^ a).
Proof.
  intros Ha. unfold F64.pow2. rewrite Zpower_Qpower by assumption.
  reflexivity.
Qed.

Lemma pow2_le (a b : Z) : (a <= b)%Z -> F64.pow2 a <= F64.pow2 b.
Proof.
  intros Hab. unfold F64.pow2. apply Qpower_le_compat_l; [assumption |].
  discriminate.
Qed.

(** The exponent found for a positive rational is not above it. *)
Lemma ilog2_le (x : Q) : 0 < x -> F64.pow2 (F64.ilog2 x) <= x.
Proof.
  intros Hx. unfold F64.ilog2.
  destruct (Qle_bool (F64.pow2 (Z.log2 (Qnum x) - Z.log2 (Z.pos (Qden x)))) x)
    eqn:Hb.
  - apply Qle_bool_iff. assumption.
  - clear Hb. destruct x as [n d]. simpl Qnum. simpl Qden.
    assert (Hn : (0 < n)%Z).
    { unfold Qlt in Hx. simpl in Hx. lia. }
    pose proof (Z.log2_spec n Hn) as [Hnlo _].
    pose proof (Z.log2_spec (Z.pos d) (Pos2Z.is_pos d)) as [_ Hdhi].
    pose proof (Z.log2_nonneg n) as Ha.
    pose proof (Z.log2_nonneg (Z.pos d)) as Hb.
    set (a := Z.log2 n) in *. set (b := Z.log2 (Z.pos d)) in *.
    assert (Hsplit : F64.pow2 (a - b - 1) * F64.pow2 (Z.succ b)
                     == F64.pow2 a).
    { rewrite <- pow2_plus. replace (a - b - 1 + Z.succ b)%Z with a by lia.
      reflexivity. }
    rewrite (pow2_inject a Ha) in Hsplit.
    rewrite (pow2_inject (Z.succ b)) in Hsplit by lia.
    pose proof (pow2_pos (a - b - 1)) as Hp.
    assert (Hd : inject_Z (Z.pos d) < inject_Z (2 ^ Z.succ b))
      by (rewrite <- Zlt_Qlt; assumption).
    assert (Hnq : inject_Z (2 ^ a) <= inject_Z n)
      by (rewrite <- Zle_Qle; assumption).
    assert (Hx' : n # d == inject_Z n / inject_Z (Z.pos d))
      by apply Qmake_Qdiv.
    rewrite Hx'. apply Qle_shift_div_l; [reflexivity |].
    apply Qle_trans with (F64.pow2 (a - b - 1) * inject_Z (2 ^ Z.succ b)).
    + apply Qmult_le_l; [assumption |]. apply Qlt_le_weak. assumption.
    + rewrite Hsplit. assumption.
Qed.

Lemma ilog2_lt (x : Q) : 0 < x -> x < F64.pow2 (F64.ilog2 x + 1).
Proof.
  intros Hx. unfold F64.ilog2.
  destruct (Qle_bool (F64.pow2 (Z.log2 (Qnum x) - Z.log2 (Z.pos (Qden x)))) x)
    eqn:Hb.
  - clear Hb. destruct x as [n d]. simpl Qnum. simpl Qden.
    assert (Hn : (0 < n)%Z).
    { unfold Qlt in Hx. simpl in Hx. lia. }
    pose proof (Z.log2_spec n Hn) as [_ Hnhi].
    pose proof (Z.log2_spec (Z.pos d) (Pos2Z.is_pos d)) as [Hdlo _].
    pose proof (Z.log2_nonneg n) as Ha.
    pose proof (Z.log2_nonneg (Z.pos d)) as Hb.
    set (a := Z.log2 n) in *. set (b := Z.log2 (Z.pos d)) in *.
    assert (Hsplit : F64.pow2 (a - b + 1) * F64.pow2 b
                     == F64.pow2 (Z.succ a)).
    { rewrite <- pow2_plus. replace (a - b + 1 + b)%Z with (Z.succ a) by lia.
      reflexivity. }
    rewrite (pow2_inject b Hb) in Hsplit.
    rewrite (pow2_inject (Z.succ a)) in Hsplit by lia.
    pose proof (pow2_pos (a - b + 1)) as Hp.
    assert (Hd : inject_Z (2 ^ b) <= inject_Z (Z.pos d))
      by (rewrite <- Zle_Qle; assumption).
    assert (Hnq : inject_Z n < inject_Z (2 ^ Z.succ a))
      by (rewrite <- Zlt_Qlt; assumption).
    assert (Hx' : n # d == inject_Z n / inject_Z (Z.pos d))
      by apply Qmake_Qdiv.
    rewrite Hx'. apply Qlt_shift_div_r; [reflexivity |].
    apply Qlt_le_trans with (F64.pow2 (a - b + 1) * inject_Z (2 ^ b)).
    + rewrite Hsplit. assumption.
    + apply Qmult_le_l; assumption.
  - replace (Z.log2 (Qnum x) - Z.log2 (Z.pos (Qden x)) - 1 + 1)%Z
      with (Z.log2 (Qnum x) - Z.log2 (Z.pos (Qden x)))%Z by lia.
    apply Qnot_le_lt. intros H. apply Qle_bool_iff in H. congruence.
Qed.

Lemma ulp_pos (x : Q) : 0 < F64.ulp x.
Proof. unfold F64.ulp. apply pow2_pos. Qed.

Lemma Qabs_pos_lt (x : Q) : ~ x == 0 -> 0 < Qabs x.
Proof.
  intros Hx. apply Qabs_case; intros H.
  - apply Qle_lteq in H. destruct H as [H|H]; [assumption |].
    exfalso. apply Hx. symmetry. assumption.
  - apply Qle_lteq in H. destruct H as [H|H]; [lra |].
    exfalso. apply Hx. assumption.
Qed.

(** In the normal range the spacing is at most [2 u |x|]. *)
Lemma ulp_le (x : Q) :
  ~ x == 0 -> F64.pow2 (-1022) <= Qabs x ->
  F64.ulp x <= 2 * F64.u * Qabs x.
Proof.
  intros Hx Hnorm. unfold F64.ulp, F64.u.
  set (e := Z.max (F64.ilog2 (Qabs x)) (-1022)).
  assert (He : F64.pow2 e <= Qabs x).
  { unfold e. destruct (Z.max_spec (F64.ilog2 (Qabs x)) (-1022))
      as [[_ ->]|[_ ->]]; [assumption |].
    apply ilog2_le. apply Qabs_pos_lt. assumption. }
  replace (e - 52)%Z with (e + (-52))%Z by lia.
  rewrite pow2_plus.
  assert (H52 : F64.pow2 (-52) == 2 * F64.pow2 (-53)) by reflexivity.
  rewrite H52, (Qmult_comm (F64.pow2 e)).
  apply Qmult_le_l; [| assumption].
  pose proof (pow2_pos (-53)). lra.
Qed.

(** Rounding a normal value moves it by at most [u |x|]. *)
Lemma round_error (x : Q) :
  ~ x == 0 -> F64.pow2 (-1022) <= Qabs x ->
  x - F64.u * Qabs x <= inject_Z (F64.rne (x / F64.ulp x)) * F64.ulp x /\
  inject_Z (F64.rne (x / F64.ulp x)) * F64.ulp x <= x + F64.u * Qabs x.
Proof.
  intros Hx Hnorm.
  pose proof (ulp_pos x) as Hg. pose proof (ulp_le x Hx Hnorm) as Hle.
  destruct (rne_near (x / F64.ulp x)) as [Hlo Hhi].
  set (g := F64.ulp x) in *. set (n := inject_Z (F64.rne (x / g))) in *.
  assert (Hxg : x / g * g == x) by (field; lra).
  assert (H1 : (- (1 # 2)) * g <= (n - x / g) * g)
    by (apply Qmult_le_compat_r; lra).
  assert (H2 : (n - x / g) * g <= (1 # 2) * g)
    by (apply Qmult_le_compat_r; lra).
  assert (H3 : (n - x / g) * g == n * g - x) by (rewrite <- Hxg at 2; ring).
  rewrite H3 in H1, H2. lra.
Qed.

Lemma relative_factor (x r e : Q) :
  0 <= e -> ~ x == 0 ->
  x - e * Qabs x <= r -> r <= x + e * Qabs x ->
  exists k, 1 - e <= k /\ k <= 1 + e /\ r == x * k.
Proof.
  intros He Hx Hlo Hhi. exists (r / x).
  split; [| split]; [| | field; assumption].
  - destruct (Qlt_le_dec 0 x) as [Hpos|Hneg].
    + rewrite (Qabs_pos x) in Hlo, Hhi by lra.
      apply Qle_shift_div_l; [assumption | lra].
    + assert (Hlt : x < 0).
      { apply Qle_lteq in Hneg. destruct Hneg; [assumption | contradiction]. }
      rewrite (Qabs_neg x) in Hlo, Hhi by lra.
      setoid_replace (r / x) with ((- r) / (- x)) by (field; assumption).
      apply Qle_shift_div_l; lra.
  - destruct (Qlt_le_dec 0 x) as [Hpos|Hneg].
    + rewrite (Qabs_pos x) in Hlo, Hhi by lra.
      apply Qle_shift_div_r; [assumption | lra].
    + assert (Hlt : x < 0).
      { apply Qle_lteq in Hneg. destruct Hneg; [assumption | contradiction]. }
      rewrite (Qabs_neg x) in Hlo, Hhi by lra.
      setoid_replace (r / x) with ((- r) / (- x)) by (field; assumption).
      apply Qle_shift_div_r; lra.
Qed.

Lemma u_bounds : 0 < F64.u /\ F64.u < 1.
Proof. split; reflexivity. Qed.

Lemma grow_pos (k : nat) : 0 < F64.grow k.
Proof.
  destruct u_bounds as [Hu0 Hu1].
  induction k as [|k IH]; simpl; [reflexivity |].
  apply Qlt_shift_div_l; lra.
Qed.

Lemma grow_S (k : nat) : F64.grow (S k) * (1 - F64.u) == F64.grow k.
Proof.
  destruct u_bounds as [Hu0 Hu1]. simpl. field. lra.
Qed.

Lemma grow_le_S (k : nat) : F64.grow k <= F64.grow (S k).
Proof.
  destruct u_bounds as [Hu0 Hu1]. pose proof (grow_pos (S k)) as Hp.
  rewrite <- (grow_S k).
  rewrite <- (Qmult_1_r (F64.grow (S k))) at 2.
  apply Qmult_le_l; [assumption | lra].
Qed.

Lemma grow_le (a b : nat) : (a <= b)%nat -> F64.grow a <= F64.grow b.
Proof.
  induction 1 as [|b Hab IH]; [apply Qle_refl |].
  apply Qle_trans with (F64.grow b); [assumption | apply grow_le_S].
Qed.

Lemma grow_ge_1 (k : nat) : 1 <= F64.grow k.
Proof. apply (grow_le 0 k). lia. Qed.

Lemma grow_plus (a b : nat) :
  F64.grow (a + b) == F64.grow a * F64.grow b.
Proof.
  destruct u_bounds as [Hu0 Hu1].
  induction a as [|a IH]; simpl; [ring |].
  rewrite IH. field. lra.
Qed.

Lemma near_pos (k : nat) (c : Q) : F64.near k c -> 0 < c.
Proof.
  intros [_ H]. pose proof (grow_pos k) as Hg.
  destruct (Qlt_le_dec 0 c) as [Hc|Hc]; [assumption |].
  exfalso. assert (c * F64.grow k <= 0); [| lra].
  rewrite <- (Qmult_0_l (F64.grow k)).
  apply Qmult_le_compat_r; lra.
Qed.

Lemma near_0_1 : F64.near 0 1.
Proof. split; simpl; lra. Qed.

(** A factor between [1 - u] and [1 + u] is within one rounding. *)
Lemma near_1 (k : Q) : 1 - F64.u <= k -> k <= 1 + F64.u -> F64.near 1 k.
Proof.
  destruct u_bounds as [Hu0 Hu1]. intros Hlo Hhi.
  unfold F64.near. change (F64.grow 1) with (1 / (1 - F64.u)).
  split.
  - apply Qle_shift_div_l; [lra |].
    apply Qle_trans with ((1 + F64.u) * (1 - F64.u)).
    + apply Qmult_le_compat_r; lra.
    + assert (0 <= F64.u * F64.u) by (apply Qmult_le_0_compat; lra). lra.
  - setoid_replace (k * (1 / (1 - F64.u))) with (k / (1 - F64.u))
      by (field; lra).
    apply Qle_shift_div_l; lra.
Qed.

Lemma near_mult (a b : nat) (c k : Q) :
  F64.near a c -> F64.near b k -> F64.near (a + b) (c * k).
Proof.
  intros Hc Hk. pose proof (near_pos a c Hc) as Hc0.
  pose proof (near_pos b k Hk) as Hk0.
  destruct Hc as [Hc1 Hc2]. destruct Hk as [Hk1 Hk2].
  pose proof (grow_pos a) as Ha. pose proof (grow_pos b) as Hb.
  unfold F64.near. rewrite grow_plus. split.
  - apply Qle_trans with (F64.grow a * k).
    + apply Qmult_le_compat_r; lra.
    + apply Qmult_le_l; assumption.
  - setoid_replace (c * k * (F64.grow a * F64.grow b))
      with ((c * F64.grow a) * (k * F64.grow b)) by ring.
    apply Qle_trans with (1 * (k * F64.grow b)).
    + lra.
    + apply Qmult_le_compat_r; [assumption |].
      apply Qmult_le_0_compat; lra.
Qed.

Lemma near_weaken (a b : nat) (c : Q) :
  (a <= b)%nat -> F64.near a c -> F64.near b c.
Proof.
  intros Hab Hc. pose proof (near_pos a c Hc) as Hc0.
  destruct Hc as [Hc1 Hc2]. pose proof (grow_le a b Hab) as Hg.
  split.
  - lra.
  - apply Qle_trans with (c * F64.grow a); [assumption |].
    apply Qmult_le_l; assumption.
Qed.

(** A result that neither overflows nor underflows is the exact value
    times a factor within one rounding. *)
Lemma round_normal_factor (x r : Q) :
  F64.round_normal x = Some r ->
  exists k, F64.near 1 k /\ r == x * k.
Proof.
  unfold F64.round_normal, F64.round. intros H.
  destruct (Qeq_bool x 0) eqn:Hz.
  - simpl in H. injection H as <-. apply Qeq_bool_iff in Hz.
    exists 1. split; [apply (near_weaken 0 1 1); [lia | apply near_0_1] |].
    rewrite Hz. ring.
  - rewrite orb_false_l in H.
    destruct (Qle_bool (F64.pow2 (-1022)) (Qabs x)) eqn:Hn; [| discriminate].
    apply Qle_bool_iff in Hn. apply Qeq_bool_neq in Hz.
    destruct (Qle_bool (F64.pow2 1024)
                (Qabs (Qred (inject_Z (F64.rne (x / F64.ulp x))
                             * F64.ulp x)))); [discriminate |].
    injection H as <-.
    destruct (round_error x Hz Hn) as [Hlo Hhi].
    destruct u_bounds as [Hu0 Hu1].
    destruct (relative_factor x
                (inject_Z (F64.rne (x / F64.ulp x)) * F64.ulp x) F64.u)
      as [k [Hk1 [Hk2 Hk]]]; try assumption; [lra |].
    exists k. split; [apply near_1; assumption |].
    exact (Qeq_trans _ _ _ (Qred_correct _) Hk).
Qed.

(** In a call without overflow and underflow the model of the call
    follows the same values. *)
Lemma round_normal_round (x r : Q) :
  F64.round_normal x = Some r -> F64.round x = F64.Num r.
Proof.
  unfold F64.round_normal. intros H.
  destruct (Qeq_bool x 0 || Qle_bool (F64.pow2 (-1022)) (Qabs x));
    [| discriminate].
  destruct (F64.round x); congruence.
Qed.

Lemma index_sum_scale (n : nat) (f : nat -> Q) (k : Q) :
  index_sum n (fun i => f i * k) == index_sum n f * k.
Proof.
  induction n as [|n IH]; simpl; [ring | rewrite IH; ring].
Qed.

Lemma index_sum_le (n : nat) (f g : nat -> Q) :
  (forall i, (i < n)%nat -> f i <= g i) -> index_sum n f <= index_sum n g.
Proof.
  induction n as [|n IH]; intros H; simpl; [apply Qle_refl |].
  assert (index_sum n f <= index_sum n g) by (apply IH; intros; apply H; lia).
  assert (f n <= g n) by (apply H; lia). lra.
Qed.

(** The sum of [g i] over a list of indices. *)
Lemma sum_over_app (g : nat -> Q) (l1 l2 : list nat) :
  F64.sum_over (l1 ++ l2) g == F64.sum_over l1 g + F64.sum_over l2 g.
Proof.
  induction l1 as [|i l1 IH]; simpl; [ring | rewrite IH; ring].
Qed.

Lemma sum_over_ext (g h : nat -> Q) (l : list nat) :
  (forall i, In i l -> g i == h i) ->
  F64.sum_over l g == F64.sum_over l h.
Proof.
  induction l as [|i l IH]; intros H; simpl; [reflexivity |].
  rewrite (H i) by (left; reflexivity).
  rewrite IH by (intros; apply H; right; assumption). reflexivity.
Qed.

Lemma sum_over_scale (g : nat -> Q) (k : Q) (l : list nat) :
  F64.sum_over l (fun i => g i * k) == F64.sum_over l g * k.
Proof.
  induction l as [|i l IH]; simpl; [ring | rewrite IH; ring].
Qed.

Lemma sum_over_perm (g : nat -> Q) (l l' : list nat) :
  Permutation l l' -> F64.sum_over l g == F64.sum_over l' g.
Proof.
  induction 1 as [|i l l' _ IH|i j l|l l' l'' _ IH1 _ IH2]; simpl.
  - reflexivity.
  - rewrite IH. reflexivity.
  - ring.
  - rewrite IH1. assumption.
Qed.

Lemma sum_over_seq (g : nat -> Q) (n : nat) :
  F64.sum_over (seq 0 n) g == index_sum n g.
Proof.
  induction n as [|n IH]; [reflexivity |].
  rewrite seq_S, sum_over_app, IH. simpl. ring.
Qed.

Lemma NoDup_app_disjoint (l1 l2 : list nat) (i : nat) :
  NoDup (l1 ++ l2) -> In i l1 -> In i l2 -> False.
Proof.
  induction l1 as [|a l1 IH]; intros Hnd H1 H2; [destruct H1 |].
  simpl in Hnd. inversion Hnd as [|? ? Hnot Hrest]; subst.
  destruct H1 as [->|H1].
  - apply Hnot. apply in_or_app. right. assumption.
  - apply IH; assumption.
Qed.

Lemma leaves_length (p : F64.plan) :
  List.length (F64.leaves p) = S (F64.nodes p).
Proof.
  induction p as [i|l IHl r IHr]; simpl; [reflexivity |].
  rewrite length_app, IHl, IHr. lia.
Qed.

(** A rounded sum over a plan is the sum of the entries at its leaves,
    each times a factor within as many roundings as the plan has
    additions. *)
Lemma tree_sum_normal_factors (p : F64.plan) (a : vector) (s : Q) :
  NoDup (F64.leaves p) ->
  F64.tree_sum_normal p a = Some s ->
  exists c : nat -> Q,
    (forall i, In i (F64.leaves p) -> F64.near (F64.nodes p) (c i)) /\
    s == F64.sum_over (F64.leaves p) (fun i => at1 a i * c i).
Proof.
  revert s. induction p as [i|l IHl r IHr]; intros s Hnd Hs.
  - injection Hs as <-. exists (fun _ => 1). split.
    + intros j _. apply near_0_1.
    + simpl. unfold at1. ring.
  - simpl in Hs, Hnd.
    destruct (F64.tree_sum_normal l a) as [x|]; [| discriminate].
    destruct (F64.tree_sum_normal r a) as [y|]; [| discriminate].
    destruct (IHl x (NoDup_app_remove_r _ _ Hnd) eq_refl) as [cl [Hcl Hx]].
    destruct (IHr y (NoDup_app_remove_l _ _ Hnd) eq_refl) as [cr [Hcr Hy]].
    destruct (round_normal_factor _ _ Hs) as [k [Hk Hsk]].
    exists (fun i => if existsb (Nat.eqb i) (F64.leaves l)
                     then cl i * k else cr i * k).
    assert (Hmem : forall i, In i (F64.leaves l) ->
                             existsb (Nat.eqb i) (F64.leaves l) = true).
    { intros i Hi. apply existsb_exists. exists i.
      split; [assumption | apply Nat.eqb_refl]. }
    assert (Hnot : forall i, In i (F64.leaves r) ->
                             existsb (Nat.eqb i) (F64.leaves l) = false).
    { intros i Hi. destruct (existsb (Nat.eqb i) (F64.leaves l)) eqn:He;
        [| reflexivity].
      apply existsb_exists in He. destruct He as [j [Hj Hij]].
      apply Nat.eqb_eq in Hij. subst j. exfalso.
      apply (NoDup_app_disjoint _ _ i Hnd); assumption. }
    split.
    + intros i Hi. simpl F64.leaves in Hi. simpl F64.nodes.
      apply in_app_or in Hi. destruct Hi as [Hi|Hi].
      * rewrite (Hmem i Hi).
        replace (S (F64.nodes l + F64.nodes r))
          with (F64.nodes l + F64.nodes r + 1)%nat by lia.
        apply near_mult; [| assumption].
        apply (near_weaken (F64.nodes l)); [lia | apply Hcl; assumption].
      * rewrite (Hnot i Hi).
        replace (S (F64.nodes l + F64.nodes r))
          with (F64.nodes l + F64.nodes r + 1)%nat by lia.
        apply near_mult; [| assumption].
        apply (near_weaken (F64.nodes r)); [lia | apply Hcr; assumption].
    + simpl F64.leaves. rewrite sum_over_app.
      rewrite (sum_over_ext _ (fun i => at1 a i * cl i * k) (F64.leaves l)).
      * rewrite (sum_over_ext _ (fun i => at1 a i * cr i * k)
                   (F64.leaves r)).
        -- rewrite !sum_over_scale, <- Hx, <- Hy, Hsk. ring.
        -- intros i Hi. rewrite (Hnot i Hi). ring.
      * intros i Hi. rewrite (Hmem i Hi). ring.
Qed.

(** A rounded sum is the sum of its terms, each times a factor within as
    many roundings as there are terms, whatever the order of the
    additions. *)
Lemma sum_normal_factors (order : F64.plan) (l : vector) (s : Q) :
  F64.covers order (List.length l) ->
  F64.sum_normal order l = Some s ->
  exists c : nat -> Q,
    (forall i, (i < List.length l)%nat -> F64.near (List.length l) (c i)) /\
    s == index_sum (List.length l) (fun i => at1 l i * c i).
Proof.
  intros Hcov Hs. destruct l as [|x l].
  - injection Hs as <-. exists (fun _ => 1).
    split; [simpl; lia | reflexivity].
  - unfold F64.sum_normal in Hs. set (a := x :: l) in *.
    unfold F64.covers in Hcov.
    assert (Hnd : NoDup (F64.leaves order)).
    { apply (Permutation_NoDup (Permutation_sym Hcov)), seq_NoDup. }
    destruct (tree_sum_normal_factors order a s Hnd Hs) as [c [Hc Hsum]].
    assert (Hn : (F64.nodes order <= List.length a)%nat).
    { pose proof (Permutation_length Hcov) as Hl.
      rewrite leaves_length, length_seq in Hl. lia. }
    exists c. split.
    + intros i Hi. apply (near_weaken (F64.nodes order)); [assumption |].
      apply Hc. apply (Permutation_in _ (Permutation_sym Hcov)).
      apply in_seq. lia.
    + rewrite Hsum, (sum_over_perm _ _ _ Hcov). apply sum_over_seq.
Qed.

(** The rounded products are the exact products, each times a factor
    within one rounding. *)
Lemma multiply_normal_factors (f w p : vector) :
  F64.multiply_normal f w = Some p ->
  List.length f = List.length w ->
  List.length p = List.length w /\
  exists k : nat -> Q,
    (forall i, (i < List.length w)%nat -> F64.near 1 (k i)) /\
    (forall i, (i < List.length w)%nat ->
       at1 p i == at1 f i * at1 w i * k i).
Proof.
  revert w p. induction f as [|x f IH]; intros [|y w] p Hp Hlen;
    simpl in Hlen; try discriminate.
  - injection Hp as <-. split; [reflexivity |].
    exists (fun _ => 1). split; intros i Hi; simpl in Hi; lia.
  - simpl in Hp.
    destruct (F64.round_normal (x * y)) as [r|] eqn:Hr; [| discriminate].
    destruct (F64.multiply_normal f w) as [ps|] eqn:Hps; [| discriminate].
    injection Hp as <-.
    destruct (IH w ps Hps) as [Hl [k [Hk Hv]]]; [lia |].
    destruct (round_normal_factor _ _ Hr) as [k0 [Hk0 Hr0]].
    split; [simpl; lia |].
    exists (fun i => match i with O => k0 | S j => k j end).
    split; intros [|i] Hi; simpl in Hi.
    + assumption.
    + apply Hk. lia.
    + exact Hr0.
    + apply (Hv i). lia.
Qed.

Lemma term_bound (a b : nat) (C d w f hi M : Q) :
  F64.near a C -> F64.near b d -> 0 <= w ->
  f <= hi -> - M <= f -> f <= M ->
  f * w * C <= (hi + (F64.grow (a + b) - 1) * M) * (w * d).
Proof.
  intros HC Hd Hw Hhi HM1 HM2.
  pose proof (near_pos a C HC) as HC0. pose proof (near_pos b d Hd) as Hd0.
  destruct HC as [HC1 HC2]. destruct Hd as [Hd1 Hd2].
  pose proof (grow_pos a) as Ha. pose proof (grow_pos b) as Hb.
  pose proof (grow_ge_1 (a + b)) as HT.
  set (T := F64.grow (a + b)) in *.
  assert (HTab : T == F64.grow a * F64.grow b) by apply grow_plus.
  assert (HCd : C <= T * d).
  { rewrite HTab. apply Qle_trans with (F64.grow a * 1); [lra |].
    setoid_replace (F64.grow a * F64.grow b * d)
      with (F64.grow a * (d * F64.grow b)) by ring.
    apply Qmult_le_l; assumption. }
  assert (HdC : d <= T * C).
  { rewrite HTab. apply Qle_trans with (F64.grow b * 1); [lra |].
    setoid_replace (F64.grow a * F64.grow b * C)
      with (F64.grow b * (C * F64.grow a)) by ring.
    apply Qmult_le_l; assumption. }
  assert (Hcore : f * C <= (hi + (T - 1) * M) * d).
  { assert (H2 : f * d <= hi * d) by (apply Qmult_le_compat_r; lra).
    assert (P0 : 0 <= (T - 1) * d) by (apply Qmult_le_0_compat; lra).
    assert (P1 : 0 <= (T - 1) * M) by (apply Qmult_le_0_compat; lra).
    destruct (Qlt_le_dec f 0) as [Hneg|Hpos].
    - assert (Ha1 : d * (- f) <= T * C * (- f))
        by (apply Qmult_le_compat_r; lra).
      assert (P2 : 0 <= (T - 1) * d * (hi + T * M))
        by (apply Qmult_le_0_compat; lra).
      apply (Qmult_le_l _ _ T); [lra |]. lra.
    - assert (H1 : C * f <= T * d * f) by (apply Qmult_le_compat_r; lra).
      assert (H3 : f * ((T - 1) * d) <= M * ((T - 1) * d))
        by (apply Qmult_le_compat_r; lra).
      lra. }
  setoid_replace (f * w * C) with (f * C * w) by ring.
  setoid_replace ((hi + (T - 1) * M) * (w * d))
    with ((hi + (T - 1) * M) * d * w) by ring.
  apply Qmult_le_compat_r; assumption.
Qed.

Lemma index_sum_nonneg (n : nat) (f : nat -> Q) :
  (forall i, (i < n)%nat -> 0 <= f i) -> 0 <= index_sum n f.
Proof.
  induction n as [|n IH]; intros H; simpl; [apply Qle_refl |].
  assert (0 <= index_sum n f) by (apply IH; intros; apply H; lia).
  assert (0 <= f n) by (apply H; lia). lra.
Qed.

Lemma chain_leaves (m : nat) : F64.leaves (F64.chain m) = seq 0 (S m).
Proof.
  induction m as [|m IH]; [reflexivity |].
  simpl F64.leaves. rewrite IH, <- seq_S. reflexivity.
Qed.

(** Adding the entries one after the other is a plan for every non-empty
    array. *)
Lemma sequential_covers (n : nat) :
  (0 < n)%nat -> F64.covers (F64.sequential n) n.
Proof.
  intros Hn. unfold F64.covers, F64.sequential.
  rewrite chain_leaves. replace (S (pred n)) with n by lia.
  apply Permutation_refl.
Qed.

Lemma tree_sum_normal_tree_sum (p : F64.plan) (a : vector) (s : Q) :
  F64.tree_sum_normal p a = Some s ->
  F64.tree_sum p (F64.of_vector a) = F64.Num s.
Proof.
  revert s. induction p as [i|l IHl r IHr]; intros s Hs; simpl in *.
  - injection Hs as <-. unfold F64.of_vector.
    change (F64.Num 0) with (F64.Num (0 : Q)). apply map_nth.
  - destruct (F64.tree_sum_normal l a) as [x|]; [| discriminate].
    destruct (F64.tree_sum_normal r a) as [y|]; [| discriminate].
    rewrite (IHl x eq_refl), (IHr y eq_refl). simpl.
    apply round_normal_round. assumption.
Qed.

Lemma sum_normal_sum (order : F64.plan) (l : vector) (s : Q) :
  F64.sum_normal order l = Some s ->
  F64.sum order (F64.of_vector l) = F64.Num s.
Proof.
  destruct l as [|x l]; intros Hs.
  - injection Hs as <-. reflexivity.
  - apply (tree_sum_normal_tree_sum order (x :: l)). assumption.
Qed.

Lemma multiply_normal_multiply (f w p : vector) :
  F64.multiply_normal f w = Some p ->
  F64.multiply (F64.of_vector f) (F64.of_vector w) = F64.of_vector p.
Proof.
  revert w p. induction f as [|x f IH]; intros [|y w] p Hp; simpl in Hp;
    try (injection Hp as <-; reflexivity).
  destruct (F64.round_normal (x * y)) as [r|] eqn:Hr; [| discriminate].
  destruct (F64.multiply_normal f w) as [ps|] eqn:Hps; [| discriminate].
  injection Hp as <-. simpl.
  rewrite (round_normal_round _ _ Hr), (IH w ps Hps). reflexivity.
Qed.

(** A call without overflow and underflow returns the value of
    [get_avg_fracunc_normal]. *)
Lemma get_avg_fracunc_normal_returns
  (order_w order_p : F64.plan) (frac_uncs cv : vector) (q : Q) :
  F64.get_avg_fracunc_normal order_w order_p frac_uncs cv = Some q ->
  F64.get_avg_fracunc order_w order_p frac_uncs cv = Ok (F64.Num q).
Proof.
  unfold F64.get_avg_fracunc_normal, F64.get_avg_fracunc, F64.average.
  destruct (negb (List.length frac_uncs =? List.length cv)%nat);
    [discriminate |].
  destruct (F64.sum_normal order_w cv) as [scl|] eqn:Hscl; [| discriminate].
  rewrite (sum_normal_sum order_w cv scl Hscl). simpl F64.is_zero.
  destruct (Qeq_bool scl 0) eqn:Hz; [discriminate |].
  destruct (F64.multiply_normal frac_uncs cv) as [p|] eqn:Hp;
    [| discriminate].
  destruct (F64.sum_normal order_p p) as [total|] eqn:Ht; [| discriminate].
  intros Hq. rewrite (multiply_normal_multiply _ _ _ Hp).
  rewrite (sum_normal_sum order_p p total Ht). simpl. rewrite Hz.
  rewrite (round_normal_round _ _ Hq). reflexivity.
Qed.

(** The value of a call without overflow and underflow, times the
    rounded sum of the weights, is a sum of the terms
    [frac_uncs[i] * cv[i]], each times a factor within [n + 2] roundings,
    and that sum of the weights is a sum of the weights, each times a
    factor within [n] roundings. *)
Lemma get_avg_fracunc_normal_factors
  (order_w order_p : F64.plan) (frac_uncs cv : vector) (q : Q) :
  F64.covers order_w (List.length cv) ->
  F64.covers order_p (List.length cv) ->
  F64.get_avg_fracunc_normal order_w order_p frac_uncs cv = Some q ->
  exists (scl : Q) (c d : nat -> Q),
    ~ scl == 0 /\
    (forall i, (i < List.length cv)%nat ->
       F64.near (1 + List.length cv + 1) (c i) /\
       F64.near (List.length cv) (d i)) /\
    scl == index_sum (List.length cv) (fun i => at1 cv i * d i) /\
    q * scl
    == index_sum (List.length cv)
         (fun i => at1 frac_uncs i * at1 cv i * c i).
Proof.
  intros Hcw Hcp. unfold F64.get_avg_fracunc_normal.
  destruct (List.length frac_uncs =? List.length cv)%nat eqn:Hlen;
    [| discriminate].
  apply Nat.eqb_eq in Hlen. simpl negb. cbv iota.
  destruct (F64.sum_normal order_w cv) as [scl|] eqn:Hscl; [| discriminate].
  destruct (Qeq_bool scl 0) eqn:Hz; [discriminate |].
  apply Qeq_bool_neq in Hz.
  destruct (F64.multiply_normal frac_uncs cv) as [p|] eqn:Hp;
    [| discriminate].
  destruct (F64.sum_normal order_p p) as [total|] eqn:Ht; [| discriminate].
  intros Hq.
  destruct (sum_normal_factors order_w cv scl Hcw Hscl) as [d [Hd Hscl']].
  destruct (multiply_normal_factors _ _ _ Hp Hlen) as [Hpl [k [Hk Hpv]]].
  rewrite <- Hpl in Hcp.
  destruct (sum_normal_factors order_p p total Hcp Ht) as [c [Hc Htot]].
  rewrite Hpl in Hc, Htot.
  destruct (round_normal_factor _ _ Hq) as [k0 [Hk0 Hq0]].
  set (n := List.length cv) in *.
  exists scl, (fun i => k i * c i * k0), d.
  split; [assumption |]. split; [| split; [assumption |]].
  - intros i Hi. split; [| apply Hd; assumption].
    apply near_mult; [| assumption].
    apply near_mult; [apply Hk | apply Hc]; assumption.
  - rewrite Hq0.
    setoid_replace (total / scl * k0 * scl) with (total * k0)
      by (field; assumption).
    rewrite Htot, <- index_sum_scale.
    apply index_sum_ext. intros i Hi. rewrite (Hpv i Hi). ring.
Qed.

(** ** [get_avg_fracunc] between the smallest and the largest value *)

(** C5, as amended: for sequences of one length with every central value
    non-negative and their sum above zero, a call in which no operation
    overflows or underflows returns a double [q] with
    [min(frac_uncs) - t * M <= q <= max(frac_uncs) + t * M], where [M]
    bounds the magnitude of the fractional uncertainties and [t] is the
    rounding tolerance for [n] bins, [(1 / (1 - 2^-53))^(2n+2) - 1]; this
    holds in whatever order numpy adds the entries. *)
Theorem get_avg_fracunc_double_between
  (order_w order_p : F64.plan) (frac_uncs cv : vector) (lo hi M q : Q) :
  F64.covers order_w (List.length cv) ->
  F64.covers order_p (List.length cv) ->
  List.length frac_uncs = List.length cv ->
  (forall w, In w cv -> 0 <= w) ->
  0 < index_sum (List.length cv) (at1 cv) ->
  is_min lo frac_uncs -> is_max hi frac_uncs ->
  (forall x, In x frac_uncs -> - M <= x /\ x <= M) ->
  F64.get_avg_fracunc_normal order_w order_p frac_uncs cv = Some q ->
  F64.get_avg_fracunc order_w order_p frac_uncs cv = Ok (F64.Num q) /\
  lo - F64.tolerance (List.length cv) * M <= q /\
  q <= hi + F64.tolerance (List.length cv) * M.
Proof.
  intros Hcw Hcp Hlen Hw _ [_ Hlo] [_ Hhi] HM Hq.
  split; [apply get_avg_fracunc_normal_returns; assumption |].
  destruct (get_avg_fracunc_normal_factors _ _ _ _ _ Hcw Hcp Hq)
    as [scl [c [d [Hz [Hcd [Hscl Hqs]]]]]].
  set (n := List.length cv) in *.
  assert (Hin : forall i, (i < n)%nat -> In (at1 frac_uncs i) frac_uncs)
    by (intros i Hi; apply nth_In; lia).
  assert (Hwi : forall i, (i < n)%nat -> 0 <= at1 cv i)
    by (intros i Hi; apply Hw, nth_In; assumption).
  assert (Hpos : 0 < scl).
  { assert (Hge : 0 <= scl).
    { rewrite Hscl. apply index_sum_nonneg. intros i Hi.
      apply Qmult_le_0_compat; [apply Hwi; assumption |].
      apply Qlt_le_weak, (near_pos n). apply Hcd. assumption. }
    apply Qle_lteq in Hge. destruct Hge as [Hgt|Heq]; [assumption |].
    exfalso. apply Hz. symmetry. assumption. }
  unfold F64.tolerance. replace (2 * n + 2)%nat with (1 + n + 1 + n)%nat by lia.
  set (t := F64.grow (1 + n + 1 + n) - 1).
  split.
  - apply (Qmult_le_r _ _ scl Hpos). rewrite Hqs, Hscl at 1.
    rewrite <- (Qmult_comm (index_sum n _)), <- index_sum_scale.
    apply index_sum_le. intros i Hi.
    destruct (Hcd i Hi) as [Hc Hd].
    destruct (HM _ (Hin i Hi)) as [HM1 HM2].
    pose proof (term_bound _ _ (c i) (d i) (at1 cv i)
                  (- at1 frac_uncs i) (- lo) M Hc Hd (Hwi i Hi)) as Hb.
    fold t in Hb.
    assert (Hx : lo <= at1 frac_uncs i) by (apply Hlo, Hin; assumption).
    specialize (Hb ltac:(lra) ltac:(lra) ltac:(lra)).
    setoid_replace (at1 cv i * d i * (lo - t * M))
      with (- ((- lo + t * M) * (at1 cv i * d i))) by ring.
    setoid_replace (at1 frac_uncs i * at1 cv i * c i)
      with (- (- at1 frac_uncs i * at1 cv i * c i)) by ring.
    apply Qopp_le_compat. assumption.
  - apply (Qmult_le_r _ _ scl Hpos). rewrite Hqs, Hscl at 1.
    rewrite <- (Qmult_comm (index_sum n _)), <- index_sum_scale.
    apply index_sum_le. intros i Hi.
    destruct (Hcd i Hi) as [Hc Hd].
    destruct (HM _ (Hin i Hi)) as [HM1 HM2].
    pose proof (term_bound _ _ (c i) (d i) (at1 cv i)
                  (at1 frac_uncs i) hi M Hc Hd (Hwi i Hi)) as Hb.
    fold t in Hb.
    assert (Hx : at1 frac_uncs i <= hi) by (apply Hhi, Hin; assumption).
    specialize (Hb Hx HM1 HM2).
    setoid_replace (at1 cv i * d i * (hi + t * M))
      with ((hi + t * M) * (at1 cv i * d i)) by ring.
    assumption.
Qed.

Lemma get_avg_fracunc_double_between_witness :
  F64.get_avg_fracunc (F64.sequential 3) (F64.sequential 3)
    [3602879701896397 # 36028797018963968;
     3602879701896397 # 36028797018963968;
     3602879701896397 # 36028797018963968] [1; 1; 1]
  = Ok (F64.Num (7205759403792795 # 72057594037927936)) /\
  (3602879701896397 # 36028797018963968)
  - F64.tolerance 3 * (3602879701896397 # 36028797018963968)
  <= 7205759403792795 # 72057594037927936 /\
  7205759403792795 # 72057594037927936
  <= (3602879701896397 # 36028797018963968)
     + F64.tolerance 3 * (3602879701896397 # 36028797018963968).
Proof.
  apply (get_avg_fracunc_double_between
           (F64.sequential 3) (F64.sequential 3)
           [3602879701896397 # 36028797018963968;
            3602879701896397 # 36028797018963968;
            3602879701896397 # 36028797018963968] [1; 1; 1]
           (3602879701896397 # 36028797018963968)
           (3602879701896397 # 36028797018963968)
           (3602879701896397 # 36028797018963968)
           (7205759403792795 # 72057594037927936)).
  - apply Permutation_refl.
  - apply Permutation_refl.
  - reflexivity.
  - intros w [<-|[<-|[<-|[]]]]; vm_compute; discriminate.
  - vm_compute. reflexivity.
  - split.
    + eexists. split; [left; reflexivity | reflexivity].
    + intros x [<-|[<-|[<-|[]]]]; vm_compute; discriminate.
  - split.
    + eexists. split; [left; reflexivity | reflexivity].
    + intros x [<-|[<-|[<-|[]]]]; vm_compute; discriminate.
  - intros x [<-|[<-|[<-|[]]]]; split; vm_compute; discriminate.
  - vm_compute. reflexivity.
Defined.

(** C5 as stated fails on the code, in four ways; the arrays are short
    and their entries are added one after the other.  With a negative
    central value the call returns 2 for uncertainties of maximum 1.  With
    the central values [1, 1, 1] and the double nearest to 0.1 three
    times, the call returns the next double above it.  A product that
    overflows makes the call return an infinity, and a product that
    underflows makes it return zero, below the minimum by more than the
    rounding tolerance. *)
Lemma get_avg_fracunc_double_between_counterexample :
  (F64.get_avg_fracunc (F64.sequential 2) (F64.sequential 2)
     [0; 1] [-1; 2] = Ok (F64.Num 2) /\
   0 < index_sum 2 (at1 [-1; 2]) /\ is_max 1 [0; 1] /\ ~ 2 <= 1) /\
  (F64.get_avg_fracunc (F64.sequential 3) (F64.sequential 3)
     [3602879701896397 # 36028797018963968;
      3602879701896397 # 36028797018963968;
      3602879701896397 # 36028797018963968] [1; 1; 1]
   = Ok (F64.Num (7205759403792795 # 72057594037927936)) /\
   is_max (3602879701896397 # 36028797018963968)
     [3602879701896397 # 36028797018963968;
      3602879701896397 # 36028797018963968;
      3602879701896397 # 36028797018963968] /\
   ~ 7205759403792795 # 72057594037927936
     <= 3602879701896397 # 36028797018963968) /\
  F64.get_avg_fracunc (F64.sequential 1) (F64.sequential 1)
    [F64.pow2 700] [F64.pow2 700] = Ok (F64.Inf false) /\
  (F64.get_avg_fracunc (F64.sequential 1) (F64.sequential 1)
     [F64.pow2 (-600)] [F64.pow2 (-600)]
   = Ok (F64.Num 0) /\
   is_min (F64.pow2 (-600)) [F64.pow2 (-600)] /\
   ~ F64.pow2 (-600) - F64.tolerance 1 * F64.pow2 (-600) <= 0).
Proof.
  split; [| split; [| split]].
  - split; [vm_compute; reflexivity |]. split; [reflexivity |]. split.
    + split.
      * exists 1. split; [right; left; reflexivity | reflexivity].
      * intros x [<-|[<-|[]]]; vm_compute; discriminate.
    + vm_compute. intros H. apply H. reflexivity.
  - split; [vm_compute; reflexivity |]. split.
    + split.
      * eexists. split; [left; reflexivity | reflexivity].
      * intros x [<-|[<-|[<-|[]]]]; vm_compute; discriminate.
    + vm_compute. intros H. apply H. reflexivity.
  - vm_compute. reflexivity.
  - split; [vm_compute; reflexivity |]. split.
    + split.
      * eexists. split; [left; reflexivity | reflexivity].
      * intros x [<-|[]]. apply Qle_refl.
    + vm_compute. intros H. apply H. reflexivity.
Qed.
